(** * parlang: a shallow embedding of the translator (parlang.ts)

    The translator reads annotated JavaScript/TypeScript files, collects the
    [@shared struct] and [@shared class] definitions, lays them out in flat
    memory, builds the virtual tables, pastes the lowered definitions back and
    finally expands the accessor, array and allocator macros.  Every function
    below is a transcription of the function of the same name in the source;
    JavaScript objects that are shared and mutated (the definitions) live in a
    heap indexed by their position in [allTypes].  What the translator
    writes with [console.log] is left out. *)

From Stdlib Require Import ZArith List Ascii String DecimalString Lia Bool.
From stdpp Require Import base gmap strings list.
Import ListNotations.
Open Scope string_scope.

(** ** Results of JavaScript computations *)

(** A JavaScript exception is either an [Error] thrown by the program, with
    its message, or a [TypeError] raised by the engine (a property read on
    [undefined], a call of something that is not a function). *)
Inductive exn : Type :=
| Error (msg : string)
| TypeError (what : string).

(** [Diverge] is the model's own outcome: the recursion budget ran out. *)
Inductive result (A : Type) : Type :=
| Ok (a : A)
| Throw (e : exn)
| Diverge.
Arguments Ok {A} a.
Arguments Throw {A} e.
Arguments Diverge {A}.

#[global] Instance result_ret : MRet result := fun _ a => Ok a.

#[global] Instance result_bind : MBind result := fun _ _ f r =>
  match r with
  | Ok a => f a
  | Throw e => Throw e
  | Diverge => Diverge
  end.

Definition is_throw {A} (r : result A) : bool :=
  match r with Throw _ => true | _ => false end.

(** ** JavaScript numbers, restricted to the integers the translator uses *)

Module JS.

Definition to_uint32 (x : Z) : Z := x mod 2 ^ 32.
Definition to_int32 (x : Z) : Z := (x + 2 ^ 31) mod 2 ^ 32 - 2 ^ 31.

(** The bit operators work on 32-bit integers. *)
Definition and (x y : Z) : Z := to_int32 (Z.land (to_int32 x) (to_int32 y)).
Definition or (x y : Z) : Z := to_int32 (Z.lor (to_int32 x) (to_int32 y)).
Definition xor (x y : Z) : Z := to_int32 (Z.lxor (to_int32 x) (to_int32 y)).
Definition not (x : Z) : Z := to_int32 (Z.lnot (to_int32 x)).
Definition shl (x n : Z) : Z := to_int32 (Z.shiftl (to_int32 x) (to_uint32 n mod 32)).
Definition shr (x n : Z) : Z := Z.shiftr (to_int32 x) (to_uint32 n mod 32).
Definition ushr (x n : Z) : Z := Z.shiftr (to_uint32 x) (to_uint32 n mod 32).

(** [x <= y] where [x] may still be [undefined] ([None]): [undefined]
    converts to NaN and every comparison with NaN is false. *)
Definition le (x : option Z) (y : Z) : bool :=
  match x with
  | Some v => (v <=? y)%Z
  | None => false
  end.

(** [String(n)] of an integer: its decimal digits, with a sign when negative. *)
Definition string_of_Z (z : Z) : string := NilZero.string_of_int (Z.to_int z).

(** The names every object inherits from [Object.prototype]: the ES5 ones and
    the legacy accessors of V8.  A read [obj[name]] of such a name on a plain
    object that has no own property [name] yields the inherited function (or,
    for [__proto__], the prototype object): a value that is neither
    [undefined] nor one of the program's own objects. *)
Definition inheritedNames : list string :=
  [ "constructor"; "toString"; "toLocaleString"; "valueOf"; "hasOwnProperty";
    "isPrototypeOf"; "propertyIsEnumerable"; "__proto__"; "__defineGetter__";
    "__defineSetter__"; "__lookupGetter__"; "__lookupSetter__" ].

Definition inherited (name : string) : bool :=
  existsb (String.eqb name) inheritedNames.

(** The outcome of a property read [obj[name]]. *)
Inductive property (A : Type) : Type :=
  | Own (a : A)
  | Inherited
  | Undefined.
Arguments Own {A} a.
Arguments Inherited {A}.
Arguments Undefined {A}.

Definition read {A} (own : option A) (name : string) : property A :=
  match own with
  | Some a => Own a
  | None => if inherited name then Inherited else Undefined
  end.

End JS.

(** ** Characters and strings *)

Definition code (c : ascii) : nat := nat_of_ascii c.

Definition between (lo hi c : ascii) : bool :=
  (code lo <=? code c)%nat && (code c <=? code hi)%nat.

Definition is_upper : ascii -> bool := between "A" "Z".
Definition is_lower : ascii -> bool := between "a" "z".
Definition is_digit : ascii -> bool := between "0" "9".
Definition is_alpha (c : ascii) : bool := is_upper c || is_lower c.
Definition is_alnum (c : ascii) : bool := is_alpha c || is_digit c.
Definition is_word (c : ascii) : bool := is_alnum c || Ascii.eqb c "_".

(** [\s]: the white space and line terminators among the code units below 256. *)
Definition is_space (c : ascii) : bool :=
  existsb (Nat.eqb (code c)) [9; 10; 11; 12; 13; 32; 160]%nat.

(** [.]: anything but a line terminator. *)
Definition is_not_newline (c : ascii) : bool :=
  negb (existsb (Nat.eqb (code c)) [10; 13]%nat).

(** The double quote. *)
Definition dquote : ascii := ascii_of_nat 34.

Definition chars (s : string) : list ascii := list_ascii_of_string s.
Definition text (l : list ascii) : string := string_of_list_ascii l.

(** [s.substring(from, to)] for [from <= to]; past the end it stops at the end. *)
Definition substring (from to : nat) (s : string) : string :=
  String.substring from (to - from) s.

(** [s.substring(from)]. *)
Definition substring_from (from : nat) (s : string) : string :=
  String.substring from (String.length s - from) s.

(** [a.join(sep)]. *)
Fixpoint join (sep : string) (l : list string) : string :=
  match l with
  | [] => ""
  | [x] => x
  | x :: rest => x +:+ sep +:+ join sep rest
  end.


(** ** Regular expressions

    A backtracking matcher with the semantics of ES5 (15.10.2): alternatives
    are tried left to right, quantifiers are greedy, an iteration that matches
    the empty string is rejected, and the captures inside a quantified group
    are reset on entry.  The program's patterns are transcribed below as terms
    of [regex]. *)

Module RegExp.

Inductive regex : Type :=
  | Bol                              (* ^ *)
  | Eol                              (* $ *)
  | Chr (c : ascii)                  (* a literal character *)
  | Cls (p : ascii -> bool)          (* a character class, \s, or . *)
  | Seq (r1 r2 : regex)
  | Alt (r1 r2 : regex)              (* r1|r2 *)
  | Opt (r : regex)                  (* r? *)
  | Star (r : regex)                 (* r* *)
  | Grp (i : nat) (r : regex).       (* the i-th capturing group *)

(** [r+] *)
Definition Plus (r : regex) : regex := Seq r (Star r).

(** A literal string. *)
Fixpoint Lit (s : string) : regex :=
  match s with
  | EmptyString => Star (Cls (fun _ => false))
  | String c EmptyString => Chr c
  | String c s' => Seq (Chr c) (Lit s')
  end.

Declare Scope regex_scope.
Delimit Scope regex_scope with re.
Bind Scope regex_scope with regex.
Infix "⋅" := Seq (at level 41, right associativity) : regex_scope.
Infix "∣" := Alt (at level 51, right associativity) : regex_scope.

(** The state of a match: the position, the text from there on, and the
    captures so far as (group, (start, end)). *)
Record mstate : Type := MState {
  pos : nat;
  rest : list ascii;
  caps : list (nat * (nat * nat))
}.

Fixpoint groups (r : regex) : list nat :=
  match r with
  | Seq r1 r2 | Alt r1 r2 => (groups r1 ++ groups r2)%list
  | Opt r1 | Star r1 => groups r1
  | Grp i r1 => i :: groups r1
  | _ => []
  end.

Definition reset (gs : list nat) (s : mstate) : mstate :=
  MState (pos s) (rest s)
         (filter (fun c => negb (existsb (Nat.eqb (fst c)) gs)) (caps s)).

Definition capture (i : nat) (from : nat) (s : mstate) : mstate :=
  MState (pos s) (rest s)
         ((i, (from, pos s)) :: filter (fun c => negb (Nat.eqb (fst c) i)) (caps s)).

Definition step (p : ascii -> bool) (k : mstate -> option mstate) (s : mstate)
  : option mstate :=
  match rest s with
  | c :: t => if p c then k (MState (S (pos s)) t (caps s)) else None
  | [] => None
  end.

(** [r*] at [s], [atom] being the matcher of [r] and [gs] its groups: at most
    [n] turns, each of which must move on in the text. *)
Definition iterate (atom : (mstate -> option mstate) -> mstate -> option mstate)
  (gs : list nat) (k : mstate -> option mstate) : nat -> mstate -> option mstate :=
  fix iterate (n : nat) (s : mstate) {struct n} : option mstate :=
    match n with
    | O => k s
    | S n' =>
        match atom (fun s' => if (pos s' =? pos s)%nat then None else iterate n' s')
                   (reset gs s) with
        | Some s' => Some s'
        | None => k s
        end
    end.

(** [matcher r k s]: match [r] at [s], then continue with [k]. *)
Fixpoint matcher (r : regex) (k : mstate -> option mstate) (s : mstate)
  {struct r} : option mstate :=
  match r with
  | Bol => if (pos s =? 0)%nat then k s else None
  | Eol => match rest s with [] => k s | _ :: _ => None end
  | Chr c => step (Ascii.eqb c) k s
  | Cls p => step p k s
  | Seq r1 r2 => matcher r1 (matcher r2 k) s
  | Alt r1 r2 =>
      match matcher r1 k s with
      | Some s' => Some s'
      | None => matcher r2 k s
      end
  | Opt r1 =>
      match matcher r1 (fun s' => if (pos s' =? pos s)%nat then None else k s')
                    (reset (groups r1) s) with
      | Some s' => Some s'
      | None => k s
      end
  | Star r1 => iterate (matcher r1) (groups r1) k (S (List.length (rest s))) s
  | Grp i r1 => matcher r1 (fun s' => k (capture i (pos s) s')) s
  end.

(** A successful match: where it starts and ends, and its captures. *)
Record found : Type := Found {
  index : nat;
  last : nat;
  groups_found : list (nat * (nat * nat))
}.

Definition match_at (r : regex) (i : nat) (input : list ascii) : option found :=
  match matcher r Some (MState i (drop i input) []) with
  | Some s => Some (Found i (pos s) (caps s))
  | None => None
  end.

(** The leftmost match starting at [i], [i+1], ..., up to the end of the input. *)
Fixpoint search (r : regex) (n : nat) (i : nat) (input : list ascii) : option found :=
  match match_at r i input with
  | Some f => Some f
  | None =>
      match n with
      | O => None
      | S n' => search r n' (S i) input
      end
  end.

(** [re.exec(input)] with [re.lastIndex = from]; for a pattern without the
    [g] flag, [from] is 0. *)
Definition exec (r : regex) (from : nat) (input : string) : option found :=
  if (String.length input <? from)%nat then None
  else search r (String.length input - from) from (chars input).

Definition test (r : regex) (input : string) : bool :=
  match exec r 0 input with Some _ => true | None => false end.

(** [m[0]]: the matched text. *)
Definition matched (input : string) (f : found) : string :=
  substring (index f) (last f) input.

(** [m[i]]: the text of group [i], or [undefined]. *)
Definition group (input : string) (f : found) (i : nat) : option string :=
  match List.find (fun c => Nat.eqb (fst c) i) (groups_found f) with
  | Some (_, (a, b)) => Some (substring a b input)
  | None => None
  end.

(** [input.replace(re, fn)] for a pattern with the [g] flag: every match,
    left to right, is replaced by [fn] of the matched text. *)
Fixpoint replace_from (r : regex) (fn : string -> string) (n : nat) (from : nat)
  (input : string) : string :=
  match n with
  | O => substring_from from input
  | S n' =>
      match exec r from input with
      | None => substring_from from input
      | Some f =>
          substring from (index f) input +:+ fn (matched input f) +:+
          (if (last f =? index f)%nat
           then substring (last f) (S (last f)) input +:+
                replace_from r fn n' (S (last f)) input
           else replace_from r fn n' (last f) input)
      end
  end.

Definition replace (r : regex) (fn : string -> string) (input : string) : string :=
  replace_from r fn (S (String.length input)) 0 input.

End RegExp.
Import RegExp.

(** ** The data model *)

Inductive DefnKind : Type := Class | Struct | Primitive.

Module PrimitiveDefn.
Record t : Type := mk { name : string; size : Z; atomic : bool }.
Definition align (p : t) : Z := size p.
Definition memory (p : t) : string := "_mem_" +:+ name p.
End PrimitiveDefn.

(** A reference to a [Defn] object: a primitive descriptor, or the user
    definition at an index of [allTypes]. *)
Inductive TypeRef : Type :=
| PrimRef (p : PrimitiveDefn.t)
| UserRef (i : nat).

Inductive PropQual : Type := None_ | Atomic | Synchronic.

Module Prop_.
Record t : Type := mk {
  line : nat;
  name : string;
  qual : PropQual;
  isArray : bool;
  typeName : string;
  typeRef : option TypeRef
}.
Definition set_typeRef (r : TypeRef) (p : t) : t :=
  mk (line p) (name p) (qual p) (isArray p) (typeName p) (Some r).
End Prop_.

Inductive MethodKind : Type := Virtual | Get | Set_ | Copy.

Module Method.
Record t : Type := mk {
  line : nat;
  kind : MethodKind;
  name : string;
  body : list string
}.
Definition set_body (b : list string) (m : t) : t :=
  mk (line m) (kind m) (name m) b.
End Method.

Module MapEntry.
Record t : Type := mk {
  name : string;
  expand : bool;
  offset : Z;
  type : TypeRef
}.
End MapEntry.

(** A plain object used as a dictionary: its own properties in insertion
    order, which is the order of [for (n in obj)]. *)
Module Dict.
Definition t (A : Type) : Type := list (string * A).

Definition get {A} (d : t A) (key : string) : option A :=
  match List.find (fun kv => String.eqb (fst kv) key) d with
  | Some kv => Some (snd kv)
  | None => None
  end.

(** [d[key] = v]: an existing property keeps its place. *)
Fixpoint set {A} (d : t A) (key : string) (v : A) : t A :=
  match d with
  | [] => [(key, v)]
  | (k, x) :: d' =>
      if String.eqb k key then (k, v) :: d' else (k, x) :: set d' key v
  end.

(** [d.hasOwnProperty(key)]: the method itself is looked up on [d], and an
    own property of that name hides it. *)
Definition hasOwnProperty {A} (d : t A) (key : string) : result bool :=
  match get d "hasOwnProperty" with
  | Some _ => Throw (TypeError "hasOwnProperty is not a function")
  | None => Ok (match get d key with Some _ => true | None => false end)
  end.
End Dict.

(** One entry of a class's virtual table. *)
Module VirtualEntry.
Record t : Type := mk {
  name : string;
  reverseCases : Dict.t (list Z);
  default_ : option string
}.
End VirtualEntry.

(** [UserDefn] with the fields of its two subclasses, [ClassDefn] and
    [StructDefn]; [kind] tells which one an object is. *)
Module UserDefn.
Record t : Type := mk {
  name : string;
  kind : DefnKind;
  size : Z;
  align : Z;
  file : string;
  line : nat;
  props : list Prop_.t;
  methods : list Method.t;
  origin : nat;
  map : option (Dict.t MapEntry.t);
  live : bool;
  checked : bool;
  (* ClassDefn *)
  baseName : string;
  baseTypeRef : option nat;
  className : string;
  classId : Z;
  subclasses : list nat;
  vtable : option (list VirtualEntry.t);
  (* StructDefn *)
  hasGetMethod : bool;
  hasSetMethod : bool
}.

Definition ClassDefn (file : string) (line : nat) (name baseName : string)
  (props : list Prop_.t) (methods : list Method.t) (origin : nat) : t :=
  mk name Class 0 0 file line props methods origin None false false
     baseName None "" 0 [] None false false.

Definition StructDefn (file : string) (line : nat) (name : string)
  (props : list Prop_.t) (methods : list Method.t) (origin : nat) : t :=
  mk name Struct 0 0 file line props methods origin None false false
     "" None "" 0 [] None
     (existsb (fun m => match Method.kind m with Get => true | _ => false end) methods)
     (existsb (fun m => match Method.kind m with Set_ => true | _ => false end) methods).

Definition set_props (ps : list Prop_.t) (d : t) : t :=
  mk (name d) (kind d) (size d) (align d) (file d) (line d) ps (methods d)
     (origin d) (map d) (live d) (checked d) (baseName d) (baseTypeRef d)
     (className d) (classId d) (subclasses d) (vtable d) (hasGetMethod d)
     (hasSetMethod d).

Definition set_methods (ms : list Method.t) (d : t) : t :=
  mk (name d) (kind d) (size d) (align d) (file d) (line d) (props d) ms
     (origin d) (map d) (live d) (checked d) (baseName d) (baseTypeRef d)
     (className d) (classId d) (subclasses d) (vtable d) (hasGetMethod d)
     (hasSetMethod d).

Definition set_layout (m : Dict.t MapEntry.t) (sz al : Z) (d : t) : t :=
  mk (name d) (kind d) sz al (file d) (line d) (props d) (methods d)
     (origin d) (Some m) (live d) (checked d) (baseName d) (baseTypeRef d)
     (className d) (classId d) (subclasses d) (vtable d) (hasGetMethod d)
     (hasSetMethod d).

Definition set_flags (lv ck : bool) (d : t) : t :=
  mk (name d) (kind d) (size d) (align d) (file d) (line d) (props d) (methods d)
     (origin d) (map d) lv ck (baseName d) (baseTypeRef d)
     (className d) (classId d) (subclasses d) (vtable d) (hasGetMethod d)
     (hasSetMethod d).

Definition set_baseTypeRef (b : nat) (d : t) : t :=
  mk (name d) (kind d) (size d) (align d) (file d) (line d) (props d) (methods d)
     (origin d) (map d) (live d) (checked d) (baseName d) (Some b)
     (className d) (classId d) (subclasses d) (vtable d) (hasGetMethod d)
     (hasSetMethod d).

Definition set_class (cn : string) (id : Z) (d : t) : t :=
  mk (name d) (kind d) (size d) (align d) (file d) (line d) (props d) (methods d)
     (origin d) (map d) (live d) (checked d) (baseName d) (baseTypeRef d)
     cn id (subclasses d) (vtable d) (hasGetMethod d) (hasSetMethod d).

Definition push_subclass (c : nat) (d : t) : t :=
  mk (name d) (kind d) (size d) (align d) (file d) (line d) (props d) (methods d)
     (origin d) (map d) (live d) (checked d) (baseName d) (baseTypeRef d)
     (className d) (classId d) (subclasses d ++ [c])%list (vtable d) (hasGetMethod d)
     (hasSetMethod d).

Definition set_vtable (v : list VirtualEntry.t) (d : t) : t :=
  mk (name d) (kind d) (size d) (align d) (file d) (line d) (props d) (methods d)
     (origin d) (map d) (live d) (checked d) (baseName d) (baseTypeRef d)
     (className d) (classId d) (subclasses d) (Some v) (hasGetMethod d)
     (hasSetMethod d).

(** [d.findAccessibleFieldFor(operation, prop)]: a read of [this.map[prop]]. *)
Definition findAccessibleFieldFor (d : t) (operation prop : string)
  : result (JS.property MapEntry.t) :=
  if String.eqb operation "get_" || String.eqb operation "set_"
     || String.eqb operation "ref_"
  then match map d with
       | Some m => Ok (JS.read (Dict.get m prop) prop)
       | None => Throw (TypeError "map is null")
       end
  else Ok JS.Undefined.

(** [cls.hasMethod(name)] *)
Definition hasMethod (d : t) (name : string) : bool :=
  existsb (fun m => String.eqb (Method.name m) name) (methods d).
End UserDefn.

(** ** The lexical collector *)

Section Patterns.
Local Open Scope regex_scope.

Definition Ws : regex := Plus (Cls is_space).
Definition Os : regex := Star (Cls is_space).
Definition Id : regex := Cls is_alpha ⋅ Star (Cls is_alnum).
Definition Lbrace : regex := Os ⋅ Chr "{".
Definition Rbrace : regex := Os ⋅ Chr "}".
Definition Comment : regex := Os ⋅ Opt (Lit "//" ⋅ Star (Cls is_not_newline)).

Definition start_re : regex :=
  Bol ⋅ Os ⋅ Lit "@shared" ⋅ Ws ⋅ (Lit "struct" ∣ Lit "class") ⋅ Ws ⋅ Id.
Definition end_re : regex :=
  Bol ⋅ Rbrace ⋅ Os ⋅ Lit "@end" ⋅ Comment ⋅ Eol.
Definition struct_re : regex :=
  Bol ⋅ Os ⋅ Lit "@shared" ⋅ Ws ⋅ Lit "struct" ⋅ Ws ⋅ Grp 1 Id ⋅ Lbrace ⋅ Comment ⋅ Eol.
Definition class_re : regex :=
  Bol ⋅ Os ⋅ Lit "@shared" ⋅ Ws ⋅ Lit "class" ⋅ Ws ⋅ Grp 1 Id ⋅ Os ⋅
  Opt (Lit "extends" ⋅ Ws ⋅ Grp 2 Id) ⋅ Lbrace ⋅ Comment ⋅ Eol.
Definition special_re : regex :=
  Bol ⋅ Os ⋅ Chr "@" ⋅ Grp 1 (Lit "get" ∣ Lit "set" ∣ Lit "copy") ⋅ Os ⋅
  Grp 2 (Chr "(" ⋅ Os ⋅ Lit "self" ⋅ Star (Cls is_not_newline)) ⋅ Eol.
Definition method_re : regex :=
  Bol ⋅ Os ⋅ Lit "@method" ⋅ Ws ⋅ Grp 1 Id ⋅ Os ⋅
  Grp 2 (Chr "(" ⋅ Os ⋅ Lit "self" ⋅ Star (Cls is_not_newline)) ⋅ Eol.
Definition blank_re : regex := Bol ⋅ Os ⋅ Comment ⋅ Eol.
Definition space_re : regex := Bol ⋅ Os ⋅ Eol.
Definition prop_re : regex :=
  Bol ⋅ Os ⋅ Grp 1 Id ⋅ Os ⋅ Chr ":" ⋅ Os ⋅
  Opt (Grp 2 (Lit "atomic" ∣ Lit "synchronic") ⋅ Ws) ⋅ Grp 3 Id ⋅ Os ⋅
  Opt (Chr ";") ⋅ Comment ⋅ Eol.
Definition aprop_re : regex :=
  Bol ⋅ Os ⋅ Grp 1 Id ⋅ Os ⋅ Chr ":" ⋅ Os ⋅ Lit "array" ⋅ Os ⋅ Chr "(" ⋅ Os ⋅
  Grp 2 Id ⋅ Os ⋅ Chr ")" ⋅ Os ⋅ Opt (Chr ";") ⋅ Comment ⋅ Eol.
End Patterns.

(** [m[i]] used as a string: [undefined] never occurs where the group is mandatory. *)
Definition grp (l : string) (f : found) (i : nat) : string :=
  match RegExp.group l f i with Some s => s | None => "" end.

(** The method being collected: [method_type], [method_name], [mbody]; [None]
    while [in_method] is false. *)
Definition open_method : Type := option (MethodKind * string * list string).

Definition flush (i : nat) (cur : open_method) (methods : list Method.t)
  : list Method.t :=
  match cur with
  | Some (method_type, method_name, mbody) =>
      (methods ++ [Method.mk i method_type method_name mbody])%list
  | None => methods
  end.

Definition newDefn (kind : DefnKind) (filename : string) (lineno : nat)
  (name inherit : string) (properties : list Prop_.t) (methods : list Method.t)
  (origin : nat) : UserDefn.t :=
  match kind with
  | Class => UserDefn.ClassDefn filename lineno name inherit properties methods origin
  | _ => UserDefn.StructDefn filename lineno name properties methods origin
  end.

(** The inner loop of [collectDefinitions], over the lines of one definition:
    [lines] is what is left of the file from line [i] on, [finish] makes the
    definition from its properties and methods, and [again] is the rest of the
    outer loop, run after the line that ends the definition. *)
Definition collectInside (filename : string)
  (finish : list Prop_.t -> list Method.t -> UserDefn.t)
  (defs : list UserDefn.t) (nlines : list string)
  (again : list string -> nat -> list UserDefn.t -> result (list UserDefn.t * list string))
  : list string -> nat -> list Prop_.t -> list Method.t -> open_method ->
    result (list UserDefn.t * list string) :=
  fix inside (lines : list string) (i : nat) (properties : list Prop_.t)
    (methods : list Method.t) (cur : open_method) {struct lines}
    : result (list UserDefn.t * list string) :=
    match lines with
    | [] =>
        (* the end of the file ends the loop as the end marker does *)
        Ok ((defs ++ [finish properties (flush i cur methods)])%list, nlines)
    | l :: lines' =>
        let i := S i in
        if RegExp.test end_re l then
          again lines' i (defs ++ [finish properties (flush i cur methods)])%list
        else
          match RegExp.exec method_re 0 l with
          | Some m =>
              inside lines' i properties (flush i cur methods)
                (Some (Virtual, grp l m 1, [grp l m 2]))
          | None =>
          match RegExp.exec special_re 0 l with
          | Some m =>
              let method_type :=
                if String.eqb (grp l m 1) "get" then Get
                else if String.eqb (grp l m 1) "set" then Set_
                else Copy in
              inside lines' i properties (flush i cur methods)
                (Some (method_type, "", [grp l m 2]))
          | None =>
          match RegExp.exec prop_re 0 l with
          | Some m =>
              let qual :=
                match RegExp.group l m 2 with
                | Some q =>
                    if String.eqb q "synchronic" then Synchronic
                    else if String.eqb q "atomic" then Atomic
                    else None_
                | None => None_
                end in
              inside lines' i
                (properties ++ [Prop_.mk i (grp l m 1) qual false (grp l m 3) None])%list
                methods cur
          | None =>
          match RegExp.exec aprop_re 0 l with
          | Some m =>
              inside lines' i
                (properties ++ [Prop_.mk i (grp l m 1) None_ true (grp l m 2) None])%list
                methods cur
          | None =>
          match cur with
          | Some (method_type, method_name, mbody) =>
              inside lines' i properties methods
                (Some (method_type, method_name, (mbody ++ [l])%list))
          | None =>
              if RegExp.test blank_re l then
                inside lines' i properties methods cur
              else
                Throw (Error (filename +:+ ":" +:+ JS.string_of_Z (Z.of_nat i) +:+
                              ": Syntax error: Not a property or method: " +:+ l))
          end end end end end
    end.

(** The header of a definition: its kind, its name and the name of its base. *)
Definition definitionHeader (l : string) : option (DefnKind * string * string) :=
  match RegExp.exec struct_re 0 l with
  | Some m => Some (Struct, grp l m 1, "")
  | None =>
      match RegExp.exec class_re 0 l with
      | Some m =>
          Some (Class, grp l m 1,
                match RegExp.group l m 2 with
                | Some b => b
                | None => ""
                end)
      | None => None
      end
  end.

(** The outer loop of [collectDefinitions]: [lines] is what is left of the
    file from line [i] on. *)
Fixpoint collectFrom (filename : string) (lines : list string) (i : nat)
  (defs : list UserDefn.t) (nlines : list string) {struct lines}
  : result (list UserDefn.t * list string) :=
  match lines with
  | [] => Ok (defs, nlines)
  | l :: lines' =>
      let i := S i in
      if negb (RegExp.test start_re l) then
        collectFrom filename lines' i defs (nlines ++ [l])%list
      else
        let lineno := i in
        match definitionHeader l with
        | None =>
            Throw (Error (filename +:+ ":" +:+ JS.string_of_Z (Z.of_nat i) +:+
                          ": Syntax error: Malformed definition line"))
        | Some (kind, name, inherit) =>
            collectInside filename
              (fun properties methods =>
                 newDefn kind filename lineno name inherit properties methods
                         (List.length nlines))
              defs nlines
              (fun lines'' i defs => collectFrom filename lines'' i defs nlines)
              lines' i [] [] None
        end
  end.

Definition collectDefinitions (filename : string) (lines : list string)
  : result (list UserDefn.t * list string) :=
  collectFrom filename lines 0 [] [].

(** ** The global state of a translation *)

Definition builtinTypes : Dict.t PrimitiveDefn.t :=
  [ ("int8", PrimitiveDefn.mk "int8" 1 true);
    ("uint8", PrimitiveDefn.mk "uint8" 1 true);
    ("int16", PrimitiveDefn.mk "int16" 2 true);
    ("uint16", PrimitiveDefn.mk "uint16" 2 true);
    ("int32", PrimitiveDefn.mk "int32" 4 true);
    ("uint32", PrimitiveDefn.mk "uint32" 4 true);
    ("float32", PrimitiveDefn.mk "float32" 4 false);
    ("float64", PrimitiveDefn.mk "float64" 8 false) ].

Definition int32 : PrimitiveDefn.t := PrimitiveDefn.mk "int32" 4 true.

Definition atomicTypes : Dict.t bool :=
  [ ("int8", true); ("uint8", true); ("int16", true); ("uint16", true);
    ("int32", true); ("uint32", true) ].

(** [allTypes] holds the definition objects; every other reference to one of
    them ([knownTypes], [allDefs], [baseTypeRef], [subclasses], [typeRef]) is
    its index in [allTypes]. *)
Record State : Type := mkState {
  allDefs : list (list nat * list string);
  allTypes : list UserDefn.t;
  knownTypes : gmap string nat;
  knownIds : gmap Z string
}.

Definition set_allTypes (h : list UserDefn.t) (st : State) : State :=
  mkState (allDefs st) h (knownTypes st) (knownIds st).

Definition set_allDefs (a : list (list nat * list string)) (st : State) : State :=
  mkState a (allTypes st) (knownTypes st) (knownIds st).

(** The object behind a reference. *)
Definition deref (h : list UserDefn.t) (i : nat) : result UserDefn.t :=
  match h !! i with
  | Some d => Ok d
  | None => Throw (TypeError "null reference")
  end.

(** [knownTypes.hasOwnProperty(name)] *)
Definition knownTypes_hasOwnProperty (kt : gmap string nat) (name : string)
  : result bool :=
  match kt !! "hasOwnProperty" with
  | Some _ => Throw (TypeError "hasOwnProperty is not a function")
  | None => Ok (match kt !! name with Some _ => true | None => false end)
  end.

(** [for (x of xs) body] with the state threaded through. *)
Fixpoint for_of {A S : Type} (xs : list A) (body : A -> S -> result S) (s : S)
  : result S :=
  match xs with
  | [] => Ok s
  | x :: xs' => s' ← body x s; for_of xs' body s'
  end.

(** ** The type registry *)

Definition buildTypeMap (files : list (list UserDefn.t * list string))
  : result State :=
  for_of files
    (fun '(defs, lines) st =>
       st' ← for_of defs
         (fun d '(ixs, st) =>
            dup ← knownTypes_hasOwnProperty (knownTypes st) (UserDefn.name d);
            if (dup : bool) then
              Throw (Error (UserDefn.file d +:+ ":" +:+
                            JS.string_of_Z (Z.of_nat (UserDefn.line d)) +:+
                            ": Duplicate type name: " +:+ UserDefn.name d))
            else
              let i := List.length (allTypes st) in
              Ok ((ixs ++ [i])%list,
                  mkState (allDefs st) (allTypes st ++ [d])%list
                          (<[UserDefn.name d := i]> (knownTypes st)) (knownIds st)))
         ([], st);
       let '(ixs, st'') := st' in
       Ok (set_allDefs (allDefs st'' ++ [(ixs, lines)])%list st''))
    (mkState [] [] ∅ ∅).

(** ** The reference resolver *)

Definition resolveProp (kt : gmap string nat) (d : UserDefn.t) (p : Prop_.t)
  : result Prop_.t :=
  atomic ← match Prop_.qual p with
           | None_ => Ok true
           | _ => Dict.hasOwnProperty atomicTypes (Prop_.typeName p)
           end;
  if negb atomic then
    Throw (Error (UserDefn.file d +:+ ":" +:+ JS.string_of_Z (Z.of_nat (Prop_.line p)) +:+
                  ": Not an atomic type: " +:+ Prop_.typeName p))
  else
    match Dict.get builtinTypes (Prop_.typeName p) with
    | Some b => Ok (Prop_.set_typeRef (PrimRef b) p)
    | None =>
        known ← knownTypes_hasOwnProperty kt (Prop_.typeName p);
        match kt !! Prop_.typeName p with
        | Some j => Ok (Prop_.set_typeRef (UserRef j) p)
        | None =>
            Throw (Error (UserDefn.file d +:+ ":" +:+
                          JS.string_of_Z (Z.of_nat (Prop_.line p)) +:+
                          ": Undefined type: " +:+ Prop_.typeName p))
        end
    end.

Fixpoint resolveProps (kt : gmap string nat) (d : UserDefn.t) (ps : list Prop_.t)
  : result (list Prop_.t) :=
  match ps with
  | [] => Ok []
  | p :: ps' =>
      p' ← resolveProp kt d p;
      ps'' ← resolveProps kt d ps';
      Ok (p' :: ps'')
  end.

Definition resolveTypeRefsAt (kt : gmap string nat) (i : nat) (h : list UserDefn.t)
  : result (list UserDefn.t) :=
  d ← deref h i;
  h ← match UserDefn.kind d with
      | Class =>
          if String.eqb (UserDefn.baseName d) "" then Ok h
          else
            known ← knownTypes_hasOwnProperty kt (UserDefn.baseName d);
            match kt !! UserDefn.baseName d with
            | None =>
                Throw (Error (UserDefn.file d +:+ ":" +:+
                              JS.string_of_Z (Z.of_nat (UserDefn.line d)) +:+
                              ": Missing base type: " +:+ UserDefn.baseName d))
            | Some b =>
                let h := <[i := UserDefn.set_baseTypeRef b d]> h in
                base ← deref h b;
                match UserDefn.kind base with
                | Class => Ok (<[b := UserDefn.push_subclass i base]> h)
                | _ => Throw (TypeError "subclasses is undefined")
                end
            end
      | _ => Ok h
      end;
  d ← deref h i;
  ps ← resolveProps kt d (UserDefn.props d);
  Ok (<[i := UserDefn.set_props ps d]> h).

Definition resolveTypeRefs (st : State) : result State :=
  h ← for_of (seq 0 (List.length (allTypes st)))
             (resolveTypeRefsAt (knownTypes st)) (allTypes st);
  Ok (set_allTypes h st).

(** ** The cycle check *)

(** [d.props[k] = p] on the object at [i]. *)
Definition store_prop (i k : nat) (p : Prop_.t) (h : list UserDefn.t)
  : list UserDefn.t :=
  match h !! i with
  | Some d => <[i := UserDefn.set_props (<[k := p]> (UserDefn.props d)) d]> h
  | None => h
  end.

Definition mark (i : nat) (lv ck : bool) (h : list UserDefn.t) : list UserDefn.t :=
  match h !! i with
  | Some d => <[i := UserDefn.set_flags lv ck d]> h
  | None => h
  end.

Fixpoint checkRecursionForStruct (fuel : nat) (kt : gmap string nat) (i : nat)
  (h : list UserDefn.t) : result (list UserDefn.t) :=
  match fuel with
  | O => Diverge
  | S fuel' =>
      d ← deref h i;
      if UserDefn.checked d then Ok h
      else
        let h := mark i true (UserDefn.checked d) h in
        h ← for_of (imap (fun k p => (k, p)) (UserDefn.props d))
             (fun '(k, p) h =>
                if Prop_.isArray p then Ok h
                else
                  builtin ← Dict.hasOwnProperty builtinTypes (Prop_.typeName p);
                  if (builtin : bool) then Ok h
                  else
                    match JS.read (kt !! Prop_.typeName p) (Prop_.typeName p) with
                    | JS.Own j =>
                        s ← deref h j;
                        match UserDefn.kind s with
                        | Struct =>
                            if UserDefn.live s then
                              Throw (Error ("Recursive type reference to struct " +:+
                                            Prop_.typeName p +:+ " from " +:+ UserDefn.name d))
                            else
                              checkRecursionForStruct fuel' kt j
                                (store_prop i k (Prop_.set_typeRef (UserRef j) p) h)
                        | _ => Ok h
                        end
                    | JS.Inherited => Ok h
                    | JS.Undefined => Throw (TypeError "probe is undefined")
                    end)
             h;
        Ok (mark i false true h)
  end.

Fixpoint checkRecursionForClass (fuel : nat) (i : nat) (h : list UserDefn.t)
  : result (list UserDefn.t) :=
  match fuel with
  | O => Diverge
  | S fuel' =>
      d ← deref h i;
      if UserDefn.checked d then Ok h
      else
        let h := mark i true (UserDefn.checked d) h in
        h ← match UserDefn.baseTypeRef d with
            | Some b =>
                base ← deref h b;
                if UserDefn.live base then
                  Throw (Error ("Recursive type reference to base class from " +:+
                                UserDefn.name d))
                else checkRecursionForClass fuel' b h
            | None => Ok h
            end;
        Ok (mark i false true h)
  end.

Definition checkRecursion (fuel : nat) (st : State) : result State :=
  h ← for_of (seq 0 (List.length (allTypes st)))
        (fun i h =>
           d ← deref h i;
           match UserDefn.kind d with
           | Struct => checkRecursionForStruct fuel (knownTypes st) i h
           | Class => checkRecursionForClass fuel i h
           | Primitive => Ok h
           end)
        (allTypes st);
  Ok (set_allTypes h st).

(** ** The layout engine *)

(** [(size + a - 1) & ~(a - 1)] *)
Definition alignUp (size a : Z) : Z := JS.and (size + a - 1)%Z (JS.not (a - 1)%Z).

(** [shallowCopy(obj)] *)
Definition shallowCopy {A} (obj : Dict.t A) : result (Dict.t A) :=
  for_of obj
    (fun '(n, v) result_ =>
       own ← Dict.hasOwnProperty obj n;
       Ok (if (own : bool) then Dict.set result_ n v else result_))
    [].

(** The running state of [layoutDefn]: the heap, and the locals [map], [size]
    and [align]. *)
Record Layout : Type := mkLayout {
  heap : list UserDefn.t;
  lmap : Dict.t MapEntry.t;
  lsize : Z;
  lalign : Z
}.

(** One turn of the loop of [layoutDefn] over [d.props]. *)
Definition layoutProp (layoutStruct : nat -> list UserDefn.t -> result (list UserDefn.t))
  (p : Prop_.t) (l : Layout) : result Layout :=
  match Prop_.typeRef p with
  | None => Throw (TypeError "typeRef is null")
  | Some r =>
      k ← match r with
          | PrimRef _ => Ok Primitive
          | UserRef j => d ← deref (heap l) j; Ok (UserDefn.kind d)
          end;
      let k := if Prop_.isArray p then Class else k in
      match k, r with
      | Primitive, PrimRef pt =>
          let size := alignUp (lsize l) (PrimitiveDefn.size pt) in
          let align := Z.max (lalign l) (PrimitiveDefn.align pt) in
          let map := Dict.set (lmap l) (Prop_.name p)
                       (MapEntry.mk (Prop_.name p) true size (PrimRef pt)) in
          Ok (mkLayout (heap l) map (size + PrimitiveDefn.size pt)%Z align)
      | Struct, UserRef j =>
          st ← deref (heap l) j;
          h ← match UserDefn.map st with
              | None => layoutStruct j (heap l)
              | Some _ => Ok (heap l)
              end;
          st ← deref h j;
          stmap ← match UserDefn.map st with
                  | Some m => Ok m
                  | None => Throw (TypeError "map is null")
                  end;
          let size := alignUp (lsize l) (UserDefn.align st) in
          let align := Z.max (lalign l) (UserDefn.align st) in
          let map := Dict.set (lmap l) (Prop_.name p)
                       (MapEntry.mk (Prop_.name p) false size (UserRef j)) in
          let root := Prop_.name p in
          map ← for_of stmap
                  (fun '(n, fld) map =>
                     own ← Dict.hasOwnProperty stmap n;
                     if (own : bool) then
                       let fldname := root +:+ "_" +:+ MapEntry.name fld in
                       Ok (Dict.set map fldname
                             (MapEntry.mk fldname (MapEntry.expand fld)
                                (size + MapEntry.offset fld)%Z (MapEntry.type fld)))
                     else Ok map)
                  map;
          Ok (mkLayout h map (size + UserDefn.size st)%Z align)
      | Primitive, UserRef _ | Struct, PrimRef _ =>
          (* no object has such a kind: no case of the switch applies *)
          Ok l
      | Class, _ =>
          (* a pointer to an object, or an array *)
          let size := alignUp (lsize l) 4%Z in
          let align := Z.max (lalign l) 4%Z in
          let map := Dict.set (lmap l) (Prop_.name p)
                       (MapEntry.mk (Prop_.name p) true size (PrimRef int32)) in
          Ok (mkLayout (heap l) map (size + 4)%Z align)
      end
  end.

(** [layoutDefn(d, map, size, align)], [d] being the object at index [i]. *)
Fixpoint layoutDefn (fuel : nat) (i : nat) (map : Dict.t MapEntry.t) (size align : Z)
  (h : list UserDefn.t) : result (list UserDefn.t) :=
  match fuel with
  | O => Diverge
  | S fuel' =>
      d ← deref h i;
      l ← for_of (UserDefn.props d)
            (layoutProp (fun j h => layoutDefn fuel' j [] 0%Z 0%Z h))
            (mkLayout h map size align);
      let size :=
        match UserDefn.kind d with
        | Struct => alignUp (lsize l) (lalign l)
        | _ => lsize l
        end in
      d ← deref (heap l) i;
      Ok (<[i := UserDefn.set_layout (lmap l) size (lalign l) d]> (heap l))
  end.

Definition layoutStruct (fuel : nat) (i : nat) (h : list UserDefn.t)
  : result (list UserDefn.t) :=
  layoutDefn fuel i [] 0%Z 0%Z h.

(** The value [v] of a character of a class name, or an internal error. *)
Definition charValue (c : ascii) : result Z :=
  if between "A" "Z" c then Ok (Z.of_nat (code c) - Z.of_nat (code "A"))%Z
  else if between "a" "z" c then Ok (Z.of_nat (code c) - Z.of_nat (code "a") + 26)%Z
  else if between "0" "9" c then Ok (Z.of_nat (code c) - Z.of_nat (code "0") + 52)%Z
  else if Ascii.eqb c "_" then Ok 62%Z
  else if Ascii.eqb c ">" then Ok 63%Z
  else Throw (Error ("Internal error: Bad character in class name: " +:+ String c "")).

(** [(((n & 0x1FFFFFF) << 3) | (n >>> 25)) ^ v] *)
Definition js_step (n v : Z) : Z :=
  JS.xor (JS.or (JS.shl (JS.and n 33554431) 3) (JS.ushr n 25)) v.

Fixpoint computeClassIdFrom (cs : list ascii) (n : Z) : result Z :=
  match cs with
  | [] => Ok n
  | c :: cs' =>
      v ← charValue c;
      computeClassIdFrom cs' (js_step n v)
  end.

Definition computeClassId (name : string) : result Z :=
  computeClassIdFrom (chars name) (Z.of_nat (String.length name)).

Fixpoint layoutClass (fuel : nat) (i : nat) (st : State) : result State :=
  match fuel with
  | O => Diverge
  | S fuel' =>
      d ← deref (allTypes st) i;
      '(st, map, size, align) ←
        (if String.eqb (UserDefn.baseName d) "" then Ok (st, [], 4, 4)%Z
         else
           match UserDefn.baseTypeRef d with
           | None => Throw (TypeError "baseTypeRef is null")
           | Some b =>
               base ← deref (allTypes st) b;
               st ← match UserDefn.map base with
                    | None => layoutClass fuel' b st
                    | Some _ => Ok st
                    end;
               base ← deref (allTypes st) b;
               match UserDefn.map base with
               | None => Throw (TypeError "map is null")
               | Some m =>
                   map ← shallowCopy m;
                   Ok (st, map, UserDefn.size base, UserDefn.align base)
               end
           end);
      h ← layoutDefn fuel' i map size align (allTypes st);
      d ← deref h i;
      prefix ← match UserDefn.baseTypeRef d with
               | Some b => base ← deref h b; Ok (UserDefn.className base +:+ ">")
               | None => Ok ""
               end;
      let className := prefix +:+ UserDefn.name d in
      classId ← computeClassId className;
      let h := <[i := UserDefn.set_class className classId d]> h in
      match knownIds st !! classId with
      | Some previous =>
          if String.eqb previous "" then
            Ok (mkState (allDefs st) h (knownTypes st)
                        (<[classId := className]> (knownIds st)))
          else
            Throw (Error ("Duplicate class ID for " +:+ className +:+ ": previous=" +:+
                          previous +:+ ", id=" +:+ JS.string_of_Z classId))
      | None =>
          Ok (mkState (allDefs st) h (knownTypes st)
                      (<[classId := className]> (knownIds st)))
      end
  end.

Definition layoutTypes (fuel : nat) (st : State) : result State :=
  for_of (seq 0 (List.length (allTypes st)))
    (fun i st =>
       d ← deref (allTypes st) i;
       match UserDefn.kind d with
       | Class => layoutClass fuel i st
       | _ => h ← layoutStruct fuel i (allTypes st); Ok (set_allTypes h st)
       end)
    st.

(** ** The virtual-table builder *)

(** [findMethodImplFor(cls, stopAt, name)]; [None] is [null]. *)
Fixpoint findMethodImplFor (fuel : nat) (h : list UserDefn.t) (cls : nat)
  (stopAt : option nat) (name : string) : result (option string) :=
  match fuel with
  | O => Diverge
  | S fuel' =>
      if bool_decide (Some cls = stopAt) then Ok None
      else
        c ← deref h cls;
        if UserDefn.hasMethod c name then
          Ok (Some (UserDefn.name c +:+ "." +:+ name +:+ "_impl"))
        else
          match UserDefn.baseTypeRef c with
          | Some b => findMethodImplFor fuel' h b stopAt name
          | None => Throw (Error ("Internal error: Method not found: " +:+ name))
          end
  end.

Module VirtualMethodNameIterator.
Record t : Type := mk {
  i : nat;
  inherited : bool;
  filter : Dict.t bool;
  cls : nat
}.

Definition new (cls : nat) : t := mk 0 false [] cls.

(** [next()]: the pair it returns, and the iterator afterwards. *)
Fixpoint next (fuel : nat) (h : list UserDefn.t) (it : t)
  : result (string * bool * t) :=
  match fuel with
  | O => Diverge
  | S fuel' =>
      c ← deref h (cls it);
      match UserDefn.methods c !! i it with
      | None =>
          (* this.i == this.cls.methods.length *)
          match UserDefn.baseTypeRef c with
          | None => Ok ("", false, it)
          | Some b => next fuel' h (mk 0 true (filter it) b)
          end
      | Some m =>
          let it := mk (S (i it)) (inherited it) (filter it) (cls it) in
          match Method.kind m with
          | Virtual =>
              if String.eqb (Method.name m) "init" then next fuel' h it
              else
                seen ← Dict.hasOwnProperty (filter it) (Method.name m);
                if (seen : bool) then next fuel' h it
                else
                  Ok (Method.name m, inherited it,
                      mk (i it) (inherited it)
                         (Dict.set (filter it) (Method.name m) true) (cls it))
          | _ => next fuel' h it
          end
      end
  end.
End VirtualMethodNameIterator.

Module InclusiveSubclassIterator.
(** What the stack holds: a class, an array of classes, or an index. *)
Inductive item : Type :=
| AClass (c : nat)
| AnArray (xs : list nat)
| ANumber (x : nat).

(** The stack, its top first. *)
Definition t : Type := list item.

Definition new (cls : nat) : t := [AClass cls].

Definition push_subclasses (c : UserDefn.t) (stack : t) : t :=
  match UserDefn.subclasses c with
  | [] => stack
  | subs => ANumber 0 :: AnArray subs :: stack
  end.

(** [next()]: the class it returns ([None] for [null]) and the iterator
    afterwards. *)
Definition next (h : list UserDefn.t) (stack : t) : result (option nat * t) :=
  match stack with
  | [] => Ok (None, [])
  | ANumber x :: AnArray xs :: stack =>
      match xs !! x with
      | None => Throw (TypeError "cls is undefined")
      | Some cls =>
          let x := S x in
          let stack :=
            if (x <? List.length xs)%nat then ANumber x :: AnArray xs :: stack
            else stack in
          c ← deref h cls;
          Ok (Some cls, push_subclasses c stack)
      end
  | AClass x :: stack =>
      c ← deref h x;
      Ok (Some x, push_subclasses c stack)
  | _ => Throw (TypeError "subclasses is undefined")
  end.
End InclusiveSubclassIterator.

(** The loop of [createVirtualsFor] over the inclusive subclasses of [cls];
    [stopAt] is [cls.baseTypeRef]. *)
Fixpoint collectCases (fuel : nat) (h : list UserDefn.t) (stopAt : option nat)
  (mname : string) (subs : InclusiveSubclassIterator.t)
  (reverseCases : Dict.t (list Z)) : result (Dict.t (list Z)) :=
  match fuel with
  | O => Diverge
  | S fuel' =>
      '(subcls, subs) ← InclusiveSubclassIterator.next h subs;
      match subcls with
      | None => Ok reverseCases
      | Some sub =>
          impl ← findMethodImplFor fuel' h sub stopAt mname;
          match impl with
          | None => collectCases fuel' h stopAt mname subs reverseCases
          | Some impl =>
              own ← Dict.hasOwnProperty reverseCases impl;
              let reverseCases :=
                if (own : bool) then reverseCases else Dict.set reverseCases impl [] in
              s ← deref h sub;
              let ids := match Dict.get reverseCases impl with
                         | Some ids => ids
                         | None => []
                         end in
              collectCases fuel' h stopAt mname subs
                (Dict.set reverseCases impl (ids ++ [UserDefn.classId s])%list)
          end
      end
  end.

(** The loop of [createVirtualsFor] over the virtual method names. *)
Fixpoint collectVirtuals (fuel : nat) (h : list UserDefn.t) (cls : nat)
  (mnames : VirtualMethodNameIterator.t) (vtable : list VirtualEntry.t)
  : result (list VirtualEntry.t) :=
  match fuel with
  | O => Diverge
  | S fuel' =>
      '(mname, isInherited, mnames) ← VirtualMethodNameIterator.next fuel' h mnames;
      if String.eqb mname "" then Ok vtable
      else
        c ← deref h cls;
        reverseCases ← collectCases fuel' h (UserDefn.baseTypeRef c) mname
                         (InclusiveSubclassIterator.new cls) [];
        def ← match isInherited, UserDefn.baseTypeRef c with
              | true, Some b => findMethodImplFor fuel' h b None mname
              | _, _ => Ok None
              end;
        collectVirtuals fuel' h cls mnames
          (vtable ++ [VirtualEntry.mk mname reverseCases def])%list
  end.

Definition createVirtualsFor (fuel : nat) (cls : nat) (h : list UserDefn.t)
  : result (list UserDefn.t) :=
  vtable ← collectVirtuals fuel h cls (VirtualMethodNameIterator.new cls) [];
  c ← deref h cls;
  Ok (<[cls := UserDefn.set_vtable vtable c]> h).

Definition createVirtuals (fuel : nat) (st : State) : result State :=
  h ← for_of (seq 0 (List.length (allTypes st)))
        (fun i h =>
           t ← deref h i;
           match UserDefn.kind t with
           | Class => createVirtualsFor fuel i h
           | _ => Ok h
           end)
        (allTypes st);
  Ok (set_allTypes h st).

(** ** Self-accessor expansion *)

Section SelfPatterns.
Local Open Scope regex_scope.

Definition self_getter_re : regex :=
  Lit "SELF_" ⋅ Opt (Lit "ref_" ∣ Lit "notify_") ⋅ Plus (Cls is_word).
Definition self_accessor_re : regex :=
  Lit "SELF_" ⋅
  (Lit "set_" ∣ Lit "add_" ∣ Lit "sub_" ∣ Lit "or_" ∣ Lit "compareExchange_" ∣
   Lit "loadWhenEqual_" ∣ Lit "loadWhenNotEqual_" ∣ Lit "expectUpdate_") ⋅
  Plus (Cls is_word) ⋅ Os ⋅ Chr "(".
End SelfPatterns.

Definition expandSelfAccessorsIn (t : UserDefn.t) (line : string) : string :=
  let line := RegExp.replace self_accessor_re
                (fun m => UserDefn.name t +:+ "." +:+ substring_from 5 m +:+ "self, ")
                line in
  RegExp.replace self_getter_re
    (fun m => UserDefn.name t +:+ "." +:+ substring_from 5 m +:+ "(self)")
    line.

Definition expandSelfAccessors (st : State) : State :=
  set_allTypes
    (List.map
       (fun t =>
          UserDefn.set_methods
            (List.map
               (fun m => Method.set_body (List.map (expandSelfAccessorsIn t) (Method.body m)) m)
               (UserDefn.methods t))
            t)
       (allTypes st))
    st.

(** ** The paste-up emitter *)

(** [body[x]]; past the end of the array the read yields [undefined]. *)
Definition line_at (body : list string) (x : nat) : string :=
  match body !! x with Some l => l | None => "undefined" end.

(** The index of the last line of [body] once its trailing blank lines are
    dropped: [last] after the [while] loop, counted down from [last]. *)
Fixpoint trimBlank (body : list string) (last : nat) : nat :=
  match last with
  | O => O
  | S last' =>
      if RegExp.test space_re (line_at body last) then trimBlank body last' else last
  end.

Definition pasteupMethod (m : Method.t) : list string :=
  let name := Method.name m in
  let name :=
    if String.eqb name "" then
      match Method.kind m with
      | Get => "_get_impl"
      | Set_ => "_set_impl"
      | Copy => "_copy_impl"
      | Virtual => name
      end
    else if String.eqb name "init" then name
    else name +:+ "_impl" in
  let body := Method.body m in
  match body with
  | [] =>
      (* body.length - 1 is -1: neither loop runs *)
      [ "  " +:+ name +:+ " : function " +:+ line_at body 0; "undefined," ]
  | _ :: _ =>
      let last := trimBlank body (List.length body - 1) in
      match last with
      | O => [ "  " +:+ name +:+ " : function " +:+ line_at body 0 +:+ "," ]
      | S _ =>
          ([ "  " +:+ name +:+ " : function " +:+ line_at body 0 ] ++
           List.map (line_at body) (seq 1 (last - 1)) ++
           [ line_at body last +:+ "," ])%list
      end
  end.

Definition pasteupVirtual (virtual : VirtualEntry.t) : result (list string) :=
  cases ← for_of (VirtualEntry.reverseCases virtual)
            (fun '(revname, revs) nlines =>
               own ← Dict.hasOwnProperty (VirtualEntry.reverseCases virtual) revname;
               if (own : bool) then
                 Ok (nlines ++
                     List.map (fun r => "    case " +:+ JS.string_of_Z r +:+ ": ") revs ++
                     [ "      return " +:+ revname +:+ "(self, ...args);" ])%list
               else Ok nlines)
            [];
  Ok ([ VirtualEntry.name virtual +:+ ": function (self, ...args) {";
        "  switch (_mem_int32[self>>2]) {" ] ++
      cases ++
      [ "    default:";
        "      " +:+
        match VirtualEntry.default_ virtual with
        | Some def => "return " +:+ def +:+ "(self, ...args)"
        | None => "throw new Error('Bad type')"
        end +:+ ";";
        "  }";
        "}," ])%list.

Definition pasteupDefn (d : UserDefn.t) : result (list string) :=
  let isClass := match UserDefn.kind d with Class => true | _ => false end in
  vlines ← (if isClass then
              match UserDefn.vtable d with
              | None => Throw (TypeError "vtable is null")
              | Some vtable =>
                  for_of vtable (fun v nlines => ls ← pasteupVirtual v; Ok (nlines ++ ls)%list) []
              end
            else Ok []);
  Ok ([ "const " +:+ UserDefn.name d +:+ " = {";
        "  NAME: " +:+ String dquote (UserDefn.name d) +:+ String dquote ",";
        "  SIZE: " +:+ JS.string_of_Z (UserDefn.size d) +:+ ",";
        "  ALIGN: " +:+ JS.string_of_Z (UserDefn.align d) +:+ "," ] ++
      (if isClass then [ "  CLSID: " +:+ JS.string_of_Z (UserDefn.classId d) +:+ "," ] else []) ++
      concat (List.map pasteupMethod (UserDefn.methods d)) ++
      vlines ++
      (if isClass then
         [ "initInstance:function(self) { _mem_int32[self>>2]=" +:+
           JS.string_of_Z (UserDefn.classId d) +:+ "; return self; }," ]
       else []) ++
      [ "}" ] ++
      (if isClass then
         [ "Parlang._idToType[" +:+ JS.string_of_Z (UserDefn.classId d) +:+ "] = " +:+
           UserDefn.name d +:+ ";" ]
       else []))%list.

(** One file: [k] is the number of lines of [lines] copied so far. *)
Definition pasteupFile (h : list UserDefn.t) (defs : list nat) (lines : list string)
  : result (list string) :=
  '(k, nlines) ← for_of defs
      (fun j '(k, nlines) =>
         d ← deref h j;
         let k' := Nat.max k (Nat.min (UserDefn.origin d) (List.length lines)) in
         ls ← pasteupDefn d;
         Ok (k', (nlines ++ take (k' - k) (drop k lines) ++ ls)%list))
      (0%nat, []);
  Ok (nlines ++ drop k lines)%list.

Definition pasteupTypes (st : State) : result State :=
  a ← for_of (allDefs st)
        (fun '(defs, lines) a =>
           nlines ← pasteupFile (allTypes st) defs lines;
           Ok (a ++ [(defs, nlines)])%list)
        [];
  Ok (set_allDefs a st).

(** ** The global macro expander *)

Section MacroPatterns.
Local Open Scope regex_scope.

Definition acc_re : regex :=
  Grp 1 (Cls is_alpha ⋅ Star (Cls is_alnum)) ⋅ Chr "." ⋅
  Opt (Grp 2 (Lit "set_" ∣ Lit "ref_")) ⋅ Grp 3 (Plus (Cls is_word)) ⋅ Os ⋅ Chr "(".
Definition arr_re : regex :=
  Grp 1 (Cls is_alpha ⋅ Star (Cls is_alnum)) ⋅ Lit ".array_" ⋅
  Grp 2 (Lit "get" ∣ Lit "set") ⋅ Opt (Chr "_" ⋅ Grp 3 (Plus (Cls is_word))) ⋅
  Os ⋅ Chr "(".
Definition new_re : regex :=
  Lit "@new" ⋅ Ws ⋅
  ((Lit "array" ⋅ Os ⋅ Chr "(" ⋅ Os ⋅ Grp 1 (Cls is_alpha ⋅ Star (Cls is_alnum)) ⋅
    Os ⋅ Chr ",")
   ∣ Grp 2 (Cls is_alpha ⋅ Star (Cls is_alnum))).

(** [/^\s*|\s*$/] *)
Definition trim_re : regex := (Bol ⋅ Os) ∣ (Os ⋅ Eol).
(** [/^[a-zA-Z0-9]+$/] *)
Definition plain_re : regex := Bol ⋅ Plus (Cls is_alnum) ⋅ Eol.
End MacroPatterns.

(** [cleanupArg(s)]; [None] is [null]. *)
Definition cleanupArg (s : string) : option string :=
  let s := RegExp.replace trim_re (fun _ => "") s in
  if String.eqb s "" then None else Some s.

Module ParamParser.
(** [nextArg()] on a parser over [input]: [start] is where the argument
    begins, [cs] the input from [pos] on, and [args] what [allArgs] has
    collected so far.  [again] is the rest of the loop of [allArgs], run when
    an argument was found before a comma. *)
Definition nextArg (input : string) (start : nat) (args : list string)
  (again : list ascii -> nat -> list string -> result (list string * nat))
  : list ascii -> nat -> Z -> result (list string * nat) :=
  fix nextArg (cs : list ascii) (pos : nat) (depth : Z) {struct cs}
    : result (list string * nat) :=
    match cs with
    | [] => Ok (args, pos)
    | c :: cs' =>
        let pos := S pos in
        if Ascii.eqb c "," then
          if (depth =? 0)%Z then
            match cleanupArg (substring start (pos - 1) input) with
            | Some a => again cs' pos (args ++ [a])%list
            | None => Ok (args, pos)
            end
          else nextArg cs' pos depth
        else if Ascii.eqb c "(" || Ascii.eqb c "{" || Ascii.eqb c "[" then
          nextArg cs' pos (depth + 1)%Z
        else if Ascii.eqb c "}" || Ascii.eqb c "]" then
          nextArg cs' pos (depth - 1)%Z
        else if Ascii.eqb c ")" then
          if (depth =? 0)%Z then
            (* done = true: the next call returns null *)
            match cleanupArg (substring start (pos - 1) input) with
            | Some a => Ok ((args ++ [a])%list, pos)
            | None => Ok (args, pos)
            end
          else nextArg cs' pos (depth - 1)%Z
        else if Ascii.eqb c "'" || Ascii.eqb c dquote then
          Throw (Error "Internal error: Avoid strings in arguments for now")
        else nextArg cs' pos depth
    end.

(** [allArgs()] on a parser that stands at [pos], [cs] being the input from
    [pos] on: the arguments, and [where] afterwards.  The loop stops at the
    first call of [nextArg] that returns [null] or [undefined]. *)
Fixpoint allArgsFrom (input : string) (cs : list ascii) (pos : nat)
  (args : list string) {struct cs} : result (list string * nat) :=
  nextArg input pos args (fun cs' => allArgsFrom input cs') cs pos 0%Z.

(** [new ParamParser(input, pos).allArgs()], with [where] afterwards. *)
Definition allArgs (input : string) (pos : nat) : result (list string * nat) :=
  allArgsFrom input (drop pos (chars input)) pos [].
End ParamParser.

(** [endstrip(x)] *)
Definition endstrip (x : string) : string :=
  if RegExp.test plain_re x then x else "(" +:+ x +:+ ")".

(** [as[i]] handed to [endstrip] and [expandMacrosIn]: a missing argument is
    [undefined], which both pass on and the concatenation prints. *)
Definition arg (args : list string) (i : nat) : string :=
  match args !! i with Some a => a | None => "undefined" end.

Fixpoint log2_loop (fuel : nat) (x i : Z) : result Z :=
  if (x >? 1)%Z then
    match fuel with
    | O => Diverge
    | S fuel' => log2_loop fuel' (JS.shr x 1) (i + 1)%Z
    end
  else Ok i.

(** [log2(x)]: [var i] is hoisted, so the test reads it while it is [undefined]. *)
Definition log2 (x : Z) : result Z :=
  let i : option Z := None in
  if JS.le i 0 then Throw (Error ("log2: " +:+ JS.string_of_Z x))
  else log2_loop 32 x 0%Z.

(** [findType(name)] *)
Definition findType (st : State) (name : string) : result TypeRef :=
  match Dict.get builtinTypes name with
  | Some b => Ok (PrimRef b)
  | None =>
      known ← knownTypes_hasOwnProperty (knownTypes st) name;
      match knownTypes st !! name with
      | Some j => Ok (UserRef j)
      | None => Throw (Error ("Internal: Unknown type in sizeofType: " +:+ name))
      end
  end.

(** What a macro returns: the new text and the index at which to go on. *)
Definition rewrite : Type := string * nat.

(** [type.size] *)
Definition sizeOf (st : State) (type : TypeRef) : result Z :=
  match type with
  | PrimRef p => Ok (PrimitiveDefn.size p)
  | UserRef j => d ← deref (allTypes st) j; Ok (UserDefn.size d)
  end.

(** [type.align] *)
Definition alignOf (st : State) (type : TypeRef) : result Z :=
  match type with
  | PrimRef p => Ok (PrimitiveDefn.align p)
  | UserRef j => d ← deref (allTypes st) j; Ok (UserDefn.align d)
  end.

Section Macros.
Variable st : State.
(** The recursive calls of [expandMacrosIn]. *)
Variable expandMacrosIn : string -> result string.

(** [loadFromRef(ref, type, s, left, operation, pp, rhs, nomatch)];
    [where] is [pp.where] and [type] is [None] when it is [undefined]. *)
Definition loadFromRef (ref : string) (type : option TypeRef) (s left : string)
  (operation : string) (where_ : nat) (rhs : string) (nomatch : rewrite)
  : result rewrite :=
  match type with
  | None => Throw (TypeError "type is undefined")
  | Some type =>
      '(mem, size, t) ←
        match type with
        | PrimRef p => Ok (PrimitiveDefn.memory p, PrimitiveDefn.size p, None)
        | UserRef j =>
            d ← deref (allTypes st) j;
            match UserDefn.kind d with
            | Class => Ok ("_mem_int32", 4%Z, Some d)
            | _ => Ok ("", 0%Z, Some d)
            end
        end;
      if (size >? 0)%Z then
        if String.eqb operation "get_" then
          k ← log2 size;
          let expr := "(" +:+ mem +:+ "[" +:+ ref +:+ ">>" +:+ JS.string_of_Z k +:+ "])" in
          Ok (left +:+ expr +:+ substring_from where_ s,
              (String.length left + String.length expr)%nat)
        else if String.eqb operation "set_" then
          k ← log2 size;
          v ← expandMacrosIn (endstrip rhs);
          let expr := "(" +:+ mem +:+ "[" +:+ ref +:+ ">>" +:+ JS.string_of_Z k +:+
                      "] = " +:+ v +:+ ")" in
          Ok (left +:+ expr +:+ substring_from where_ s,
              (String.length left + String.length expr)%nat)
        else Ok nomatch
      else
        match t with
        | None => Ok nomatch
        | Some t =>
            if String.eqb operation "get_" then
              if negb (UserDefn.hasGetMethod t) then Ok nomatch
              else
                let expr := "(" +:+ UserDefn.name t +:+ "._get_impl(" +:+ ref +:+ "))" in
                Ok (left +:+ expr +:+ substring_from where_ s,
                    (String.length left + String.length expr)%nat)
            else if String.eqb operation "set_" then
              if negb (UserDefn.hasSetMethod t) then Ok nomatch
              else
                v ← expandMacrosIn (endstrip rhs);
                let expr := "(" +:+ UserDefn.name t +:+ "._set_impl(" +:+ ref +:+ "," +:+
                            v +:+ "))" in
                Ok (left +:+ expr +:+ substring_from where_ s,
                    (String.length left + String.length expr)%nat)
            else Ok nomatch
        end
  end.

(** [fld.offset] and [fld.type] of a field that was found: an inherited
    property has neither. *)
Definition offsetOf (fld : option MapEntry.t) : string :=
  match fld with
  | Some e => JS.string_of_Z (MapEntry.offset e)
  | None => "undefined"
  end.

(** [accMacro(s, p, ms)] *)
Definition accMacro (s : string) (p : nat) (ms : found) : result rewrite :=
  let m := RegExp.matched s ms in
  let className := grp s ms 1 in
  let operation := RegExp.group s ms 2 in
  let propName := grp s ms 3 in
  let nomatch := (s, (p + String.length m)%nat) in
  let left := substring 0 p s in
  let operation := match operation with
                   | Some o => if String.eqb o "" then "get_" else o
                   | None => "get_"
                   end in
  match JS.read (knownTypes st !! className) className with
  | JS.Undefined => Ok nomatch
  | JS.Inherited => Throw (TypeError "cls.findAccessibleFieldFor is not a function")
  | JS.Own j =>
      cls ← deref (allTypes st) j;
      fld ← UserDefn.findAccessibleFieldFor cls operation propName;
      match fld with
      | JS.Undefined => Ok nomatch
      | _ =>
          let fld := match fld with JS.Own e => Some e | _ => None end in
          '(args, where_) ← ParamParser.allArgs s (p + String.length m);
          if String.eqb operation "get_" && negb (List.length args =? 1)%nat then
            Ok nomatch
          else if String.eqb operation "set_" && negb (List.length args =? 2)%nat then
            Ok nomatch
          else
            a0 ← expandMacrosIn (endstrip (arg args 0));
            let ref := "(" +:+ a0 +:+ "+" +:+ offsetOf fld +:+ ")" in
            if String.eqb operation "ref_" then
              Ok (left +:+ ref +:+ substring_from where_ s,
                  (String.length left + String.length ref)%nat)
            else
              loadFromRef ref (option_map MapEntry.type fld) s left operation where_
                (arg args 1) nomatch
      end
  end.

(** [arrMacro(s, p, ms)] *)
Definition arrMacro (s : string) (p : nat) (ms : found) : result rewrite :=
  let m := RegExp.matched s ms in
  let typeName := grp s ms 1 in
  let operation := grp s ms 2 in
  let field := RegExp.group s ms 3 in
  let nomatch := (s, (p + String.length m)%nat) in
  type ← findType st typeName;
  '(args, where_) ← ParamParser.allArgs s (p + String.length m);
  if String.eqb operation "get" && negb (List.length args =? 2)%nat then Ok nomatch
  else if String.eqb operation "set" && negb (List.length args =? 3)%nat then Ok nomatch
  else
    let operation := if String.eqb operation "get" then "get_"
                     else if String.eqb operation "set" then "set_"
                     else operation in
    let field := match field with
                 | Some f => if String.eqb f "" then None else Some f
                 | None => None
                 end in
    user ← match type with
           | PrimRef _ => Ok None
           | UserRef j => d ← deref (allTypes st) j; Ok (Some d)
           end;
    let aggregate := match user with
                     | Some d => match UserDefn.kind d with Class => false | _ => true end
                     | None => false
                     end in
    if negb aggregate && (match field with Some _ => true | None => false end) then
      Ok nomatch
    else
      a0 ← expandMacrosIn (endstrip (arg args 0));
      size ← sizeOf st type;
      a1 ← expandMacrosIn (endstrip (arg args 1));
      let ref := "(" +:+ a0 +:+ "+" +:+ JS.string_of_Z size +:+ "*" +:+ a1 +:+ ")" in
      match field, user with
      | Some f, Some d =>
          fld ← UserDefn.findAccessibleFieldFor d operation f;
          match fld with
          | JS.Undefined => Ok nomatch
          | _ =>
              let fld := match fld with JS.Own e => Some e | _ => None end in
              let ref := "(" +:+ ref +:+ "+" +:+ offsetOf fld +:+ ")" in
              loadFromRef ref (option_map MapEntry.type fld) s (substring 0 p s)
                operation where_ (arg args 2) nomatch
          end
      | _, _ =>
          loadFromRef ref (Some type) s (substring 0 p s) operation where_
            (arg args 2) nomatch
      end.

(** [newMacro(s, p, ms)] *)
Definition newMacro (s : string) (p : nat) (ms : found) : result rewrite :=
  let m := RegExp.matched s ms in
  let arrayType := grp s ms 1 in
  let classType := RegExp.group s ms 2 in
  let left := substring 0 p s in
  match classType with
  | Some classType =>
      '(size, align) ←
        match JS.read (knownTypes st !! classType) classType with
        | JS.Undefined =>
            Throw (Error ("Unknown type argument to @new: " +:+ classType))
        | JS.Inherited => Ok ("undefined", "undefined")
        | JS.Own j =>
            t ← deref (allTypes st) j;
            Ok (JS.string_of_Z (UserDefn.size t), JS.string_of_Z (UserDefn.align t))
        end;
      let expr := "(" +:+ classType +:+ ".initInstance(Parlang.alloc(" +:+ size +:+ "," +:+
                  align +:+ ")))" in
      Ok (left +:+ expr +:+ substring_from (p + String.length m) s,
          (String.length left + String.length expr)%nat)
  | None =>
      '(args, where_) ← ParamParser.allArgs s (p + String.length m);
      if negb (List.length args =? 1)%nat then
        Throw (Error ("Wrong number of arguments to @new array(" +:+ arrayType +:+ ")"))
      else
        t ← findType st arrayType;
        size ← sizeOf st t;
        n ← expandMacrosIn (endstrip (arg args 0));
        align ← alignOf st t;
        let expr := "(Parlang.alloc(" +:+ JS.string_of_Z size +:+ " * " +:+ n +:+ ", " +:+
                    JS.string_of_Z align +:+ "))" in
        Ok (left +:+ expr +:+ substring_from where_ s,
            (String.length left + String.length expr)%nat)
  end.
End Macros.

(** [myExec(re, macro, text)], the search standing at [lastIndex]. *)
Fixpoint myExecFrom (fuel : nat) (re : regex)
  (macro : string -> nat -> found -> result rewrite) (text : string) (lastIndex : nat)
  : result string :=
  match RegExp.exec re lastIndex text with
  | None => Ok text
  | Some m =>
      match fuel with
      | O => Diverge
      | S fuel' =>
          '(newText, newStart) ←
            macro text (RegExp.last m - String.length (RegExp.matched text m)) m;
          myExecFrom fuel' re macro newText newStart
      end
  end.

Definition myExec (fuel : nat) (re : regex)
  (macro : string -> nat -> found -> result rewrite) (text : string) : result string :=
  myExecFrom fuel re macro text 0.

Fixpoint expandMacrosIn (fuel : nat) (st : State) (text : string) : result string :=
  match fuel with
  | O => Diverge
  | S fuel' =>
      t ← myExec fuel' acc_re (accMacro st (expandMacrosIn fuel' st)) text;
      t ← myExec fuel' arr_re (arrMacro st (expandMacrosIn fuel' st)) t;
      myExec fuel' new_re (newMacro st (expandMacrosIn fuel' st)) t
  end.

Definition expandGlobalAccessorsAndMacros (fuel : nat) (st : State) : result State :=
  a ← for_of (allDefs st)
        (fun '(defs, lines) a =>
           nlines ← for_of lines
                      (fun l nlines => l' ← expandMacrosIn fuel st l; Ok (nlines ++ [l'])%list)
                      [];
           Ok (a ++ [(defs, nlines)])%list)
        [];
  Ok (set_allDefs a st).

(** ** The driver *)

(** [text.split(sep)] for a separator of one character. *)
Fixpoint split (sep : ascii) (s : string) : list string :=
  match s with
  | EmptyString => [""]
  | String c s' =>
      if Ascii.eqb c sep then "" :: split sep s'
      else match split sep s' with
           | l :: ls => String c l :: ls
           | [] => [String c ""]
           end
  end.

Definition newline : ascii := ascii_of_nat 10.

(** [input_file.slice(-11)] *)
Definition slice_last (n : nat) (s : string) : string :=
  substring_from (String.length s - n) s.

(** The first loop of [main]: every input file, here a name and its text, is
    split into lines and handed to the collector. *)
Definition collectAll (args : list (string * string))
  : result (list (list UserDefn.t * list string)) :=
  for_of args
    (fun '(input_file, text) allDefs =>
       if (String.length input_file <? 11)%nat
          || (negb (String.eqb (slice_last 11 input_file) ".js.parlang")
              && negb (String.eqb (slice_last 11 input_file) ".ts.parlang"))
       then Throw (Error ("Bad file name (must be .js.parlang or .ts.parlang): " +:+
                          input_file))
       else
         r ← collectDefinitions input_file (split newline text);
         Ok (allDefs ++ [r])%list)
    [].

(** The passes of [main] that come before the layout. *)
Definition prepare (fuel : nat) (args : list (string * string)) : result State :=
  allDefs ← collectAll args;
  st ← buildTypeMap allDefs;
  st ← resolveTypeRefs st;
  checkRecursion fuel st.

(** The passes of [main] that analyse the definitions. *)
Definition analyse (fuel : nat) (args : list (string * string)) : result State :=
  st ← prepare fuel args;
  st ← layoutTypes fuel st;
  createVirtuals fuel st.

(** [main(args)]: the text written to each output file. *)
Definition main (fuel : nat) (args : list (string * string)) : result (list string) :=
  st ← analyse fuel args;
  st ← pasteupTypes (expandSelfAccessors st);
  st ← expandGlobalAccessorsAndMacros fuel st;
  Ok (List.map (fun '(_, lines) => join (String newline "") lines) (allDefs st)).

(** ** Reading a state *)

(** The definition registered under a name. *)
Definition typeNamed (st : State) (name : string) : option UserDefn.t :=
  i ← knownTypes st !! name; allTypes st !! i.

(** The entry of a field in the map of a definition that was laid out. *)
Definition fieldOf (d : UserDefn.t) (field : string) : option MapEntry.t :=
  m ← UserDefn.map d; Dict.get m field.

Definition offsetOfField (st : State) (name field : string) : option Z :=
  d ← typeNamed st name; e ← fieldOf d field; Some (MapEntry.offset e).

Definition classIdOf (st : State) (name : string) : option Z :=
  d ← typeNamed st name; Some (UserDefn.classId d).

(** [SIZE] and [ALIGN] of a definition. *)
Definition sizeAlignOf (st : State) (name : string) : option (Z * Z) :=
  d ← typeNamed st name; Some (UserDefn.size d, UserDefn.align d).

(** The entry of a field of a definition. *)
Definition entryOf (st : State) (name field : string) : option MapEntry.t :=
  d ← typeNamed st name; fieldOf d field.

(** The table entry of a virtual method of a class. *)
Definition virtualOf (d : UserDefn.t) (mname : string) : option VirtualEntry.t :=
  vt ← UserDefn.vtable d;
  List.find (fun v => String.eqb (VirtualEntry.name v) mname) vt.

(** The implementation the dispatcher of [v] calls for a class identifier: the
    first case that lists it, else the default. *)
Definition dispatch (v : VirtualEntry.t) (id : Z) : option string :=
  match List.find (fun c => existsb (Z.eqb id) (snd c)) (VirtualEntry.reverseCases v) with
  | Some c => Some (fst c)
  | None => VirtualEntry.default_ v
  end.

(** A text from its lines. *)
Definition unlines (lines : list string) : string := join (String newline "") lines.

(** ** The sources of the scenarios *)

Definition Point_source : string := unlines
  [ "@shared class Point {";
    "    x: int32";
    "    y: int32";
    "} @end" ].

Definition Pair_source : string := unlines
  [ "@shared struct Pair {";
    "    x: float64;";
    "    y: int32;";
    "} @end";
    "@shared class PairBox {";
    "    pad1: float32;";
    "    pad2: float64;";
    "    p: Pair;";
    "    pad3: int32;";
    "} @end" ].

Definition ABC_source : string := unlines
  [ "@shared class A {";
    "    @method init(self) { return self; }";
    "    @method f(self) { return 1; }";
    "} @end";
    "@shared class B extends A {";
    "    @method f(self) { return 2; }";
    "} @end";
    "@shared class C extends B {";
    "} @end" ].

(** A class that embeds a struct without fields. *)
Definition Empty_source : string := unlines
  [ "@shared struct Empty {";
    "} @end";
    "@shared class Holder {";
    "    e: Empty";
    "    x: int32";
    "} @end" ].




(** A class with methods, a statement before it and one after it. *)
Definition Counter_source : string := unlines
  [ "var before = 1;";
    "@shared class Counter {";
    "    n: int32";
    "    @method init(self, n) {";
    "        SELF_set_n(n);";
    "        return self;";
    "    }";
    "    @method get(self) {";
    "        return SELF_n;";
    "    }";
    "} @end";
    "var c = Counter.init(@new Counter, 7);" ].

(** Two classes whose names have the same identifier. *)
Definition Collision_source : string := unlines
  [ "@shared class AI {";
    "} @end";
    "@shared class BA {";
    "} @end" ].



(** ** The class identifier as the specification gives it

    The recurrence of the specification, read over the unbounded integers:
    [id] starts as the length of the name, and every character [c] turns it
    into [(((id & 0x01FFFFFF) << 3) | (id >>> 25)) ^ code(c)]. *)

Definition alphabet : string :=
  "ABCDEFGHIJKLMNOPQRSTUVWXYZabcdefghijklmnopqrstuvwxyz0123456789_>".

Fixpoint position (c : ascii) (s : string) : option nat :=
  match s with
  | EmptyString => None
  | String c' s' =>
      if Ascii.eqb c c' then Some 0%nat
      else match position c s' with
           | Some i => Some (S i)
           | None => None
           end
  end.

Definition spec_code (c : ascii) : Z :=
  match position c alphabet with
  | Some i => Z.of_nat i
  | None => 0
  end.

Definition spec_step (id v : Z) : Z :=
  Z.lxor (Z.lor (Z.shiftl (Z.land id 33554431) 3) (Z.shiftr id 25)) v.

Definition spec_classId (name : string) : Z :=
  fold_left (fun id c => spec_step id (spec_code c)) (chars name)
            (Z.of_nat (String.length name)).

Definition in_alphabet (c : ascii) : Prop := position c alphabet <> None.

(** ** What the layout pass keeps

    The predicates in which the invariants of the layout pass are stated. *)

(** [d'] is [d] but for its layout: [map], [size] and [align]. *)
Definition relaid (d d' : UserDefn.t) : Prop :=
  d' = d \/ exists m sz al, d' = UserDefn.set_layout m sz al d.

(** [h'] holds the objects of [h], each possibly laid out again; an object
    that is not a struct and whose index [keep] holds is untouched. *)
Definition relaid_heap (keep : nat -> Prop) (h h' : list UserDefn.t) : Prop :=
  List.length h' = List.length h /\
  forall j d, h !! j = Some d ->
    exists d', h' !! j = Some d' /\ relaid d d' /\
               (keep j -> UserDefn.kind d <> Struct -> d' = d).

Definition laidOut (d : UserDefn.t) : Prop := UserDefn.map d <> None.

(** The invariant of [layoutClass]: names are not empty, the identifier of
    every class that is laid out is registered in [knownIds], and no two such
    classes share an identifier. *)
Record layout_inv (st : State) : Prop := mk_layout_inv {
  inv_names : forall j d, allTypes st !! j = Some d -> UserDefn.name d <> "";
  inv_known : forall j d, allTypes st !! j = Some d ->
    UserDefn.kind d = Class -> laidOut d ->
    exists cn, knownIds st !! UserDefn.classId d = Some cn /\ cn <> "";
  inv_distinct : forall j1 j2 d1 d2,
    allTypes st !! j1 = Some d1 -> allTypes st !! j2 = Some d2 ->
    UserDefn.kind d1 = Class -> UserDefn.kind d2 = Class ->
    laidOut d1 -> laidOut d2 ->
    UserDefn.classId d1 = UserDefn.classId d2 -> j1 = j2
}.

(** Every object is still there, of the same kind and name, and what was laid
    out stays laid out. *)
Definition grown (h h' : list UserDefn.t) : Prop :=
  List.length h' = List.length h /\
  forall j d, h !! j = Some d ->
    exists d', h' !! j = Some d' /\ UserDefn.kind d' = UserDefn.kind d /\
               UserDefn.name d' = UserDefn.name d /\ (laidOut d -> laidOut d').

(** The alignments the layout gives: 0 to a struct without fields, and else
    the largest alignment of a field, one of 1, 2, 4 and 8. *)
Definition alignment (a : Z) : Prop :=
  (a = 0 \/ a = 1 \/ a = 2 \/ a = 4 \/ a = 8)%Z.

(** [d] has such an alignment and, when it is a struct, a size that is a
    multiple of it. *)
Definition aligned (d : UserDefn.t) : Prop :=
  alignment (UserDefn.align d) /\
  (UserDefn.kind d = Struct -> (UserDefn.align d | UserDefn.size d)%Z).

Definition aligned_heap (h : list UserDefn.t) : Prop :=
  forall j d, h !! j = Some d -> laidOut d -> aligned d.

(** Every property of a primitive type refers to a descriptor of
    [builtinTypes], as the resolver leaves it. *)
Definition builtin_props (h : list UserDefn.t) : Prop :=
  forall j d p pt, h !! j = Some d -> In p (UserDefn.props d) ->
    Prop_.typeRef p = Some (PrimRef pt) -> In pt (List.map snd builtinTypes).

(** [layoutClass] has given [d] its dotted name. *)
Definition classed (d : UserDefn.t) : Prop := UserDefn.className d <> "".

(** The dotted name of [d] is its own name, after the dotted name of its base
    and [>] when it has one. *)
Definition dotted (h : list UserDefn.t) (d : UserDefn.t) : Prop :=
  match UserDefn.baseTypeRef d with
  | None => UserDefn.className d = UserDefn.name d
  | Some b =>
      exists base, h !! b = Some base /\ classed base /\
        UserDefn.className d = (UserDefn.className base +:+ ">") +:+ UserDefn.name d
  end.

(** What the resolver and the cycle check leave: names are not empty, and a
    base reference comes with a base name and leads to another object, a
    class. *)
Definition based (h : list UserDefn.t) : Prop :=
  forall j d, h !! j = Some d ->
    UserDefn.name d <> "" /\
    forall b, UserDefn.baseTypeRef d = Some b ->
      b <> j /\ UserDefn.baseName d <> "" /\
      exists base, h !! b = Some base /\ UserDefn.kind base = Class.

(** The invariant of [layoutClass] on names: a class that is laid out has its
    dotted name, and every object with a dotted name has the identifier of
    that name, registered in [knownIds]. *)
Record naming_inv (st : State) : Prop := mk_naming_inv {
  nm_based : based (allTypes st);
  nm_class : forall j d, allTypes st !! j = Some d ->
    UserDefn.kind d = Class -> laidOut d -> classed d;
  nm_id : forall j d, allTypes st !! j = Some d -> classed d ->
    computeClassId (UserDefn.className d) = Ok (UserDefn.classId d);
  nm_known : forall j d, allTypes st !! j = Some d -> classed d ->
    exists cn, knownIds st !! UserDefn.classId d = Some cn /\ cn <> "";
  nm_dotted : forall j d, allTypes st !! j = Some d -> classed d ->
    dotted (allTypes st) d
}.

(** What a layout keeps of every object: its base, that it is laid out, and
    its dotted name once it has one. *)
Definition kept (h h' : list UserDefn.t) : Prop :=
  forall j d, h !! j = Some d ->
    exists d', h' !! j = Some d' /\
      UserDefn.baseTypeRef d' = UserDefn.baseTypeRef d /\
      UserDefn.baseName d' = UserDefn.baseName d /\
      (laidOut d -> laidOut d') /\
      (classed d -> UserDefn.className d' = UserDefn.className d).

(** No table of [h] has an entry for a method called [init]. *)
Definition no_init (h : list UserDefn.t) : Prop :=
  forall j d vt, h !! j = Some d -> UserDefn.vtable d = Some vt ->
    Forall (fun v => VirtualEntry.name v <> "init") vt.



(** [r'] gives what [r] gives, unless [r] ran out of budget. *)
Definition refines {A} (r r' : result A) : Prop := r = Diverge \/ r = r'.

(** [requires c r]: every text that [r] matches contains the character [c]
    (a sufficient test: a literal [c] outside alternatives and quantifiers). *)
Fixpoint requires (c : ascii) (r : regex) : bool :=
  match r with
  | Chr c' => Ascii.eqb c c'
  | Seq r1 r2 => requires c r1 || requires c r2
  | Alt r1 r2 => requires c r1 && requires c r2
  | Grp _ r1 => requires c r1
  | _ => false
  end.

(** What a successful match of [r] consumed, from the state [s] to the state
    [s'] that the continuation [k] accepted. *)
Definition reads (c : ascii) (r : regex) (k : mstate -> option mstate)
  (s res : mstate) : Prop :=
  exists s' consumed,
    k s' = Some res /\ rest s = (consumed ++ rest s')%list /\
    (requires c r = true -> In c consumed).

(** The character [c] occurs nowhere in [s]. *)
Definition free_of (c : ascii) (s : string) : Prop :=
  existsb (Ascii.eqb c) (chars s) = false.

(** * Theorems *)

(** ** The helper [log2] *)

Section Numbers.
Local Open Scope Z_scope.

Lemma to_int32_small (x : Z) : - 2 ^ 31 <= x < 2 ^ 31 -> JS.to_int32 x = x.
Proof.
  intros H. unfold JS.to_int32.
  rewrite Z.mod_small by lia. lia.
Qed.

Lemma to_uint32_small (x : Z) : 0 <= x < 2 ^ 32 -> JS.to_uint32 x = x.
Proof. intros H. unfold JS.to_uint32. apply Z.mod_small. lia. Qed.

Lemma shr_1 (x : Z) : 0 <= x < 2 ^ 31 -> JS.shr x 1 = x / 2.
Proof.
  intros H. unfold JS.shr.
  rewrite to_int32_small by lia.
  change (JS.to_uint32 1 mod 32) with 1.
  rewrite Z.shiftr_div_pow2 by lia. reflexivity.
Qed.

Lemma log2_half (x : Z) : 2 <= x -> Z.log2 x = Z.log2 (x / 2) + 1.
Proof.
  intros H.
  assert (Hpos : 0 < x / 2) by (apply Z.div_str_pos; lia).
  destruct (Z.log2_spec (x / 2) Hpos) as [L U].
  pose proof (Z.log2_nonneg (x / 2)) as Hn.
  apply Z.log2_unique; [lia|].
  replace (Z.succ (Z.log2 (x / 2) + 1)) with (Z.succ (Z.succ (Z.log2 (x / 2)))) by lia.
  rewrite Z.pow_add_r, !Z.pow_succ_r in * by lia.
  pose proof (Z.div_mod x 2 ltac:(lia)) as Hd.
  pose proof (Z.mod_pos_bound x 2 ltac:(lia)) as Hm.
  lia.
Qed.

Lemma log2_loop_spec (fuel : nat) : forall x i : Z,
  1 <= x < 2 ^ 31 -> x < 2 ^ Z.of_nat fuel ->
  log2_loop fuel x i = Ok (i + Z.log2 x).
Proof.
  induction fuel as [|fuel IH]; intros x i Hx Hf.
  - simpl in Hf. lia.
  - destruct (Z.eq_dec x 1) as [->|Hne].
    + destruct fuel; simpl; f_equal; lia.
    + assert (Hgt : (x >? 1) = true) by (apply Z.gtb_lt; lia).
      cbn [log2_loop]. rewrite Hgt, shr_1 by lia.
      rewrite Nat2Z.inj_succ, Z.pow_succ_r in Hf by lia.
      pose proof (Z.div_mod x 2 ltac:(lia)) as Hd.
      pose proof (Z.mod_pos_bound x 2 ltac:(lia)) as Hm.
      rewrite IH by lia.
      rewrite (log2_half x) by lia. f_equal. lia.
Qed.

(** C9: the test of [log2] reads the hoisted variable [i] while it is still
    [undefined], so [log2] never throws: for every [x <= 0] it returns 0
    where the claim wants an error.  For [1 <= x < 2^31] it returns the
    floor of the base-2 logarithm, as claimed. *)
Theorem log2_never_throws :
  log2 0 = Ok 0 /\ log2 (-8) = Ok 0 /\
  (forall x : Z, x <= 0 -> log2 x = Ok 0) /\
  (forall x : Z, 1 <= x < 2 ^ 31 -> log2 x = Ok (Z.log2 x)) /\
  log2 1 = Ok 0 /\ log2 4 = Ok 2 /\ log2 8 = Ok 3.
Proof.
  repeat split; try reflexivity.
  - intros x Hx. unfold log2. cbn [JS.le].
    assert (Hgt : (x >? 1) = false) by (rewrite Z.gtb_ltb; apply Z.ltb_ge; lia).
    cbn [log2_loop]. rewrite Hgt. reflexivity.
  - intros x Hx. unfold log2. cbn [JS.le].
    rewrite log2_loop_spec; [reflexivity | lia | simpl; lia].
Qed.

(** *** The arithmetic of the class identifier *)

Lemma to_int32_mod (x k : Z) : 0 <= k <= 32 -> JS.to_int32 x mod 2 ^ k = x mod 2 ^ k.
Proof.
  intros Hk. unfold JS.to_int32.
  pose proof (Z.div_mod (x + 2 ^ 31) (2 ^ 32) ltac:(lia)) as Hd.
  replace ((x + 2 ^ 31) mod 2 ^ 32 - 2 ^ 31)
    with (x + (- ((x + 2 ^ 31) / 2 ^ 32) * 2 ^ (32 - k)) * 2 ^ k).
  - apply Z_mod_plus_full.
  - rewrite <- Z.mul_assoc, <- Z.pow_add_r by lia.
    replace (32 - k + k) with 32 by lia. lia.
Qed.

Lemma and_mask (n : Z) : JS.and n 33554431 = n mod 2 ^ 25.
Proof.
  unfold JS.and.
  change (JS.to_int32 33554431) with (Z.ones 25).
  rewrite Z.land_ones by lia.
  rewrite to_int32_mod by lia.
  pose proof (Z.mod_pos_bound n (2 ^ 25) ltac:(lia)).
  apply to_int32_small. lia.
Qed.

Lemma ushr_25 (n : Z) : JS.ushr n 25 = (n mod 2 ^ 32) / 2 ^ 25.
Proof.
  unfold JS.ushr, JS.to_uint32.
  change (25 mod 2 ^ 32 mod 32) with 25.
  apply Z.shiftr_div_pow2. lia.
Qed.

Lemma shl_3 (x : Z) : 0 <= x < 2 ^ 25 -> JS.shl x 3 = x * 8.
Proof.
  intros H. unfold JS.shl.
  change (JS.to_uint32 3 mod 32) with 3.
  rewrite (to_int32_small x) by lia.
  rewrite Z.shiftl_mul_pow2 by lia.
  apply to_int32_small. lia.
Qed.

Lemma lor_bound (a b k : Z) :
  0 <= k -> 0 <= a < 2 ^ k -> 0 <= b < 2 ^ k -> 0 <= Z.lor a b < 2 ^ k.
Proof.
  intros Hk Ha Hb. split; [apply Z.lor_nonneg; lia|].
  destruct (Z.eq_dec a 0) as [->|Ha0]; [rewrite Z.lor_0_l; lia|].
  destruct (Z.eq_dec b 0) as [->|Hb0]; [rewrite Z.lor_0_r; lia|].
  assert (Hl : 0 < Z.lor a b).
  { assert (0 <= Z.lor a b) by (apply Z.lor_nonneg; lia).
    destruct (Z.eq_dec (Z.lor a b) 0) as [E|]; [|lia].
    apply Z.lor_eq_0_iff in E. lia. }
  apply Z.log2_lt_pow2; [lia|].
  rewrite Z.log2_lor by lia.
  apply Z.max_lub_lt; apply Z.log2_lt_pow2; lia.
Qed.

Lemma lxor_bound (a b k : Z) :
  0 <= k -> 0 <= a < 2 ^ k -> 0 <= b < 2 ^ k -> 0 <= Z.lxor a b < 2 ^ k.
Proof.
  intros Hk Ha Hb.
  assert (Hn : 0 <= Z.lxor a b) by (apply Z.lxor_nonneg; lia).
  split; [lia|].
  destruct (Z.eq_dec a 0) as [->|Ha0]; [rewrite Z.lxor_0_l; lia|].
  destruct (Z.eq_dec b 0) as [->|Hb0]; [rewrite Z.lxor_0_r; lia|].
  destruct (Z.eq_dec (Z.lxor a b) 0) as [->|Hx0]; [lia|].
  apply Z.log2_lt_pow2; [lia|].
  eapply Z.le_lt_trans; [apply Z.log2_lxor; lia|].
  apply Z.max_lub_lt; apply Z.log2_lt_pow2; lia.
Qed.

Lemma js_step_value (n v : Z) :
  0 <= v < 64 ->
  js_step n v = Z.lxor (Z.lor ((n mod 2 ^ 25) * 8) ((n mod 2 ^ 32) / 2 ^ 25)) v
  /\ 0 <= js_step n v < 2 ^ 28.
Proof.
  intros Hv. unfold js_step.
  pose proof (Z.mod_pos_bound n (2 ^ 25) ltac:(lia)) as H25.
  pose proof (Z.mod_pos_bound n (2 ^ 32) ltac:(lia)) as H32.
  assert (Hq : 0 <= (n mod 2 ^ 32) / 2 ^ 25 < 2 ^ 28).
  { split; [apply Z.div_pos; lia|]. apply Z.div_lt_upper_bound; lia. }
  rewrite and_mask, ushr_25, shl_3 by lia.
  pose proof (lor_bound ((n mod 2 ^ 25) * 8) ((n mod 2 ^ 32) / 2 ^ 25) 28
                ltac:(lia) ltac:(lia) Hq) as Hor.
  unfold JS.or.
  rewrite (to_int32_small ((n mod 2 ^ 25) * 8)) by lia.
  rewrite (to_int32_small ((n mod 2 ^ 32) / 2 ^ 25)) by lia.
  rewrite (to_int32_small (Z.lor _ _)) by lia.
  pose proof (lxor_bound (Z.lor ((n mod 2 ^ 25) * 8) ((n mod 2 ^ 32) / 2 ^ 25)) v 28
                ltac:(lia) Hor ltac:(lia)) as Hxor.
  unfold JS.xor.
  rewrite (to_int32_small (Z.lor _ _)) by lia.
  rewrite (to_int32_small v) by lia.
  rewrite (to_int32_small (Z.lxor _ _)) by lia.
  split; [reflexivity | lia].
Qed.

Lemma js_step_spec (n v : Z) :
  0 <= n < 2 ^ 32 -> 0 <= v < 64 -> js_step n v = spec_step n v.
Proof.
  intros Hn Hv.
  rewrite (proj1 (js_step_value n v Hv)). unfold spec_step.
  change 33554431 with (Z.ones 25).
  rewrite Z.land_ones, Z.shiftl_mul_pow2, Z.shiftr_div_pow2 by lia.
  rewrite (Z.mod_small n (2 ^ 32)) by lia.
  reflexivity.
Qed.

Lemma charValue_spec (c : ascii) (v : Z) :
  charValue c = Ok v -> in_alphabet c /\ v = spec_code c /\ 0 <= v < 64.
Proof.
  destruct c as [[] [] [] [] [] [] [] []]; intros H; vm_compute in H;
    try discriminate H; injection H as <-;
    (split; [vm_compute; discriminate | split; [reflexivity | lia]]).
Qed.

Lemma charValue_alphabet (c : ascii) :
  in_alphabet c -> charValue c = Ok (spec_code c).
Proof.
  destruct c as [[] [] [] [] [] [] [] []]; vm_compute; intros H;
    try reflexivity; exfalso; apply H; reflexivity.
Qed.

Lemma computeClassIdFrom_spec (cs : list ascii) : forall n : Z,
  Forall in_alphabet cs -> 0 <= n < 2 ^ 32 ->
  computeClassIdFrom cs n
  = Ok (fold_left (fun id c => spec_step id (spec_code c)) cs n).
Proof.
  induction cs as [|c cs IH]; intros n Hcs Hn; [reflexivity|].
  inversion Hcs as [|? ? Hc Hcs']; subst.
  cbn [computeClassIdFrom fold_left].
  rewrite (charValue_alphabet c Hc). cbn [mbind result_bind].
  destruct (charValue_spec c _ (charValue_alphabet c Hc)) as (_ & _ & Hv).
  rewrite <- (js_step_spec n (spec_code c) Hn Hv).
  apply IH; [assumption|].
  pose proof (proj2 (js_step_value n (spec_code c) Hv)). lia.
Qed.

Lemma computeClassIdFrom_range (cs : list ascii) : forall n r : Z,
  computeClassIdFrom cs n = Ok r -> 0 <= n < 2 ^ 28 -> 0 <= r < 2 ^ 28.
Proof.
  induction cs as [|c cs IH]; intros n r H Hn.
  - injection H as <-. exact Hn.
  - cbn [computeClassIdFrom] in H.
    destruct (charValue c) as [v| |] eqn:Hc; cbn [mbind result_bind] in H;
      try discriminate H.
    destruct (charValue_spec c v Hc) as (_ & _ & Hv).
    eapply IH; [exact H|]. apply js_step_value. exact Hv.
Qed.

Lemma computeClassId_range (name : string) (r : Z) :
  computeClassId name = Ok r -> 0 <= r < 2 ^ 28.
Proof.
  unfold computeClassId. destruct name as [|c name].
  - cbn. intros H. injection H as <-. lia.
  - cbn [chars list_ascii_of_string computeClassIdFrom].
    destruct (charValue c) as [v| |] eqn:Hc; cbn [mbind result_bind];
      try discriminate.
    destruct (charValue_spec c v Hc) as (_ & _ & Hv).
    intros H.
    eapply computeClassIdFrom_range; [exact H|]. apply js_step_value. exact Hv.
Qed.

Lemma computeClassId_spec (name : string) :
  Forall in_alphabet (chars name) -> Z.of_nat (String.length name) < 2 ^ 32 ->
  computeClassId name = Ok (spec_classId name).
Proof.
  intros Hcs Hlen. unfold computeClassId, spec_classId.
  apply computeClassIdFrom_spec; [assumption | lia].
Qed.

End Numbers.

(** ** The layout pass *)

Lemma bind_Ok {A B} (c : result A) (f : A -> result B) (b : B) :
  c ≫= f = Ok b -> exists a, c = Ok a /\ f a = Ok b.
Proof. destruct c as [a| |]; cbn; intros H; try discriminate H. eauto. Qed.

Lemma for_of_inv {A S} (P : S -> Prop) (xs : list A) (body : A -> S -> result S) :
  (forall x s s', In x xs -> P s -> body x s = Ok s' -> P s') ->
  forall s s', P s -> for_of xs body s = Ok s' -> P s'.
Proof.
  induction xs as [|x xs IH]; intros Hbody s s' Hs H.
  - injection H as <-. exact Hs.
  - cbn [for_of] in H. apply bind_Ok in H as (s1 & H1 & H).
    eapply IH; [| |exact H].
    + intros y t t' Hy. apply Hbody. right. exact Hy.
    + eapply Hbody; [left; reflexivity | exact Hs | exact H1].
Qed.

Lemma deref_Some (h : list UserDefn.t) (i : nat) (d : UserDefn.t) :
  deref h i = Ok d <-> h !! i = Some d.
Proof.
  unfold deref. destruct (h !! i); split; intros H; try discriminate H;
    injection H as <-; reflexivity.
Qed.

Lemma relaid_refl (d : UserDefn.t) : relaid d d.
Proof. left. reflexivity. Qed.

Lemma relaid_trans (d1 d2 d3 : UserDefn.t) : relaid d1 d2 -> relaid d2 d3 -> relaid d1 d3.
Proof.
  intros [->|(m & sz & al & ->)] [->|(m' & sz' & al' & ->)].
  - left. reflexivity.
  - right. eauto.
  - right. eauto.
  - right. exists m', sz', al'. reflexivity.
Qed.

Lemma relaid_set_layout (d : UserDefn.t) m sz al : relaid d (UserDefn.set_layout m sz al d).
Proof. right. eauto. Qed.

Lemma relaid_same (d d' : UserDefn.t) :
  relaid d d' ->
  UserDefn.kind d' = UserDefn.kind d /\ UserDefn.name d' = UserDefn.name d /\
  UserDefn.classId d' = UserDefn.classId d /\
  UserDefn.className d' = UserDefn.className d /\
  UserDefn.baseTypeRef d' = UserDefn.baseTypeRef d /\
  (laidOut d -> laidOut d').
Proof.
  intros [->|(m & sz & al & ->)]; repeat split; try reflexivity;
    intros; try assumption; cbn; discriminate.
Qed.

Lemma relaid_heap_refl (keep : nat -> Prop) (h : list UserDefn.t) : relaid_heap keep h h.
Proof. split; [reflexivity|]. intros j d Hj. exists d. auto using relaid_refl. Qed.

Lemma relaid_heap_trans (keep : nat -> Prop) (h1 h2 h3 : list UserDefn.t) :
  relaid_heap keep h1 h2 -> relaid_heap keep h2 h3 -> relaid_heap keep h1 h3.
Proof.
  intros [L12 H12] [L23 H23]. split; [congruence|].
  intros j d1 Hj.
  destruct (H12 j d1 Hj) as (d2 & Hj2 & R12 & K12).
  destruct (H23 j d2 Hj2) as (d3 & Hj3 & R23 & K23).
  exists d3. split; [exact Hj3|]. split; [eauto using relaid_trans|].
  intros Hk Hs. rewrite <- (K12 Hk Hs).
  apply K23; [exact Hk|].
  destruct (relaid_same _ _ R12) as (-> & _). exact Hs.
Qed.

Lemma relaid_heap_weaken (keep keep' : nat -> Prop) (h h' : list UserDefn.t) :
  (forall j, keep' j -> keep j) -> relaid_heap keep h h' -> relaid_heap keep' h h'.
Proof.
  intros Hk [L H]. split; [exact L|].
  intros j d Hj. destruct (H j d Hj) as (d' & Hj' & R & K).
  exists d'. auto.
Qed.

(** Storing a new layout in the object at [i]. *)
Lemma relaid_heap_store (h : list UserDefn.t) (i : nat) (d : UserDefn.t) m sz al :
  h !! i = Some d ->
  relaid_heap (fun j => j <> i) h (<[i := UserDefn.set_layout m sz al d]> h).
Proof.
  intros Hi. split; [apply length_insert|].
  intros j d0 Hj. destruct (decide (j = i)) as [->|Hne].
  - exists (UserDefn.set_layout m sz al d).
    rewrite list_lookup_insert_eq by (eapply lookup_lt_Some; eauto).
    assert (d0 = d) as -> by congruence.
    split; [reflexivity|]. split; [apply relaid_set_layout|].
    intros Hk. contradiction.
  - exists d0. rewrite list_lookup_insert_ne by congruence.
    auto using relaid_refl.
Qed.

Section LayoutFrame.
Variable layoutStruct : nat -> list UserDefn.t -> result (list UserDefn.t).
Hypothesis layoutStruct_frame : forall j h h' d,
  h !! j = Some d -> UserDefn.kind d = Struct ->
  layoutStruct j h = Ok h' -> relaid_heap (fun _ => True) h h'.

Lemma layoutProp_frame (p : Prop_.t) (l l' : Layout) :
  layoutProp layoutStruct p l = Ok l' -> relaid_heap (fun _ => True) (heap l) (heap l').
Proof.
  unfold layoutProp. intros H.
  destruct (Prop_.typeRef p) as [r|]; [|discriminate H].
  apply bind_Ok in H as (k & Hk & H).
  destruct (if Prop_.isArray p then Class else k) eqn:Ek, r as [pt|j];
    try (injection H as <-; apply relaid_heap_refl).
  apply bind_Ok in H as (st & Hst & H).
  apply bind_Ok in H as (h & Hh & H).
  apply bind_Ok in H as (st' & Hst' & H).
  apply bind_Ok in H as (stmap & Hmap & H).
  apply bind_Ok in H as (map & Hfor & H).
  injection H as <-. cbn [heap].
  apply deref_Some in Hst.
  apply bind_Ok in Hk as (d & Hd & Hk). injection Hk as <-.
  apply deref_Some in Hd. assert (d = st) as -> by congruence.
  destruct (Prop_.isArray p); [discriminate Ek|].
  destruct (UserDefn.map st).
  - injection Hh as <-. apply relaid_heap_refl.
  - eapply layoutStruct_frame; eauto.
Qed.
End LayoutFrame.

Lemma layoutDefn_frame (fuel : nat) : forall i map size align h h',
  layoutDefn fuel i map size align h = Ok h' ->
  relaid_heap (fun j => j <> i) h h' /\ exists d, h' !! i = Some d /\ laidOut d.
Proof.
  induction fuel as [|fuel IH]; intros i map size align h h' H; [discriminate H|].
  cbn [layoutDefn] in H.
  apply bind_Ok in H as (d & Hd & H).
  apply bind_Ok in H as (l & Hl & H).
  apply bind_Ok in H as (d' & Hd' & H).
  injection H as <-.
  apply deref_Some in Hd, Hd'.
  assert (Hframe : relaid_heap (fun _ => True) h (heap l)).
  { revert Hl.
    apply (for_of_inv (fun l => relaid_heap (fun _ => True) h (heap l)));
      [|apply relaid_heap_refl].
    intros p l1 l2 _ Hl1 Hp.
    eapply relaid_heap_trans; [exact Hl1|].
    eapply layoutProp_frame; [|exact Hp].
    intros j h1 h2 d1 Hj Hkind Hs.
    destruct (IH j [] 0%Z 0%Z h1 h2 Hs) as [[L F] _].
    split; [exact L|].
    intros j' d0 Hj'. destruct (F j' d0 Hj') as (d0' & ? & ? & K).
    exists d0'. split; [assumption|]. split; [assumption|].
    intros _ Hns. apply K; [|exact Hns].
    intros ->. congruence. }
  split.
  - eapply relaid_heap_trans.
    + eapply relaid_heap_weaken; [|exact Hframe]. intros; exact I.
    + apply relaid_heap_store. exact Hd'.
  - eexists. rewrite list_lookup_insert_eq by (eapply lookup_lt_Some; eauto).
    split; [reflexivity|]. cbn. discriminate.
Qed.

Lemma relaid_heap_back (keep : nat -> Prop) (h h' : list UserDefn.t) j d' :
  relaid_heap keep h h' -> h' !! j = Some d' ->
  exists d, h !! j = Some d /\ relaid d d' /\
            (keep j -> UserDefn.kind d' <> Struct -> d' = d).
Proof.
  intros [L F] Hj.
  destruct (h !! j) as [d|] eqn:E.
  - destruct (F j d E) as (d'' & Hj' & R & K).
    assert (d'' = d') as -> by congruence.
    exists d. split; [reflexivity|]. split; [exact R|].
    intros Hk Hs. apply K; [exact Hk|].
    destruct (relaid_same _ _ R) as (<- & _). exact Hs.
  - apply lookup_ge_None in E. apply lookup_lt_Some in Hj. lia.
Qed.

Lemma grown_refl (h : list UserDefn.t) : grown h h.
Proof. split; [reflexivity|]. intros j d Hj. exists d. auto. Qed.

Lemma grown_trans (h1 h2 h3 : list UserDefn.t) : grown h1 h2 -> grown h2 h3 -> grown h1 h3.
Proof.
  intros [L12 H12] [L23 H23]. split; [congruence|].
  intros j d1 Hj.
  destruct (H12 j d1 Hj) as (d2 & Hj2 & K2 & N2 & M2).
  destruct (H23 j d2 Hj2) as (d3 & Hj3 & K3 & N3 & M3).
  exists d3. repeat split; [assumption | congruence | congruence | auto].
Qed.

Lemma relaid_heap_grown (keep : nat -> Prop) (h h' : list UserDefn.t) :
  relaid_heap keep h h' -> grown h h'.
Proof.
  intros [L F]. split; [exact L|].
  intros j d Hj. destruct (F j d Hj) as (d' & Hj' & R & _).
  destruct (relaid_same _ _ R) as (K & N & _ & _ & _ & M).
  exists d'. auto.
Qed.

Lemma grown_set_class (h : list UserDefn.t) (i : nat) (d : UserDefn.t) cn id :
  h !! i = Some d -> grown h (<[i := UserDefn.set_class cn id d]> h).
Proof.
  intros Hi. split; [apply length_insert|].
  intros j d0 Hj. destruct (decide (j = i)) as [->|Hne].
  - rewrite list_lookup_insert_eq by (eapply lookup_lt_Some; eauto).
    assert (d0 = d) as -> by congruence.
    eexists. split; [reflexivity|]. auto.
  - rewrite list_lookup_insert_ne by congruence. exists d0. auto.
Qed.

Lemma append_nonempty (a b : string) : b <> "" -> a +:+ b <> "".
Proof.
  intros Hb. destruct a; cbn; [exact Hb | discriminate].
Qed.

(** The last step of [layoutClass]: the class at [i] gets [className] and
    [classId], and the identifier is registered. *)
Lemma register_inv (st : State) (h : list UserDefn.t) (i : nat) (d : UserDefn.t)
  (cn : string) (id : Z) :
  layout_inv st ->
  relaid_heap (fun j => j <> i) (allTypes st) h ->
  h !! i = Some d -> cn <> "" ->
  (knownIds st !! id = None \/ knownIds st !! id = Some "") ->
  layout_inv (mkState (allDefs st) (<[i := UserDefn.set_class cn id d]> h)
                      (knownTypes st) (<[id := cn]> (knownIds st))).
Proof.
  intros [Hnames Hknown Hdistinct] Hframe Hi Hcn Hfree.
  assert (Hold : forall j d', j <> i -> h !! j = Some d' ->
            UserDefn.kind d' = Class -> laidOut d' ->
            allTypes st !! j = Some d' /\
            exists c, knownIds st !! UserDefn.classId d' = Some c /\ c <> "").
  { intros j d' Hne Hj Hk Hl.
    destruct (relaid_heap_back _ _ _ j d' Hframe Hj) as (d0 & Hj0 & R & K).
    assert (d' = d0) as <- by (apply K; [exact Hne | rewrite Hk; discriminate]).
    split; [exact Hj0|]. eapply Hknown; eauto. }
  assert (Hlook : forall j d', (<[i := UserDefn.set_class cn id d]> h) !! j = Some d' ->
            (j = i /\ d' = UserDefn.set_class cn id d) \/ (j <> i /\ h !! j = Some d')).
  { intros j d' Hj. destruct (decide (j = i)) as [->|Hne].
    - rewrite list_lookup_insert_eq in Hj by (eapply lookup_lt_Some; eauto).
      left. split; congruence.
    - rewrite list_lookup_insert_ne in Hj by congruence. right. auto. }
  constructor; cbn [allTypes knownIds].
  - intros j d' Hj. apply Hlook in Hj as [[-> ->]|[Hne Hj]].
    + cbn. destruct (relaid_heap_back _ _ _ i d Hframe Hi) as (d0 & Hj0 & R & _).
      destruct (relaid_same _ _ R) as (_ & -> & _). eauto.
    + destruct (relaid_heap_back _ _ _ j d' Hframe Hj) as (d0 & Hj0 & R & _).
      destruct (relaid_same _ _ R) as (_ & -> & _). eauto.
  - intros j d' Hj Hk Hl. apply Hlook in Hj as [[-> ->]|[Hne Hj]].
    + cbn. exists cn. rewrite lookup_insert_eq. auto.
    + destruct (Hold j d' Hne Hj Hk Hl) as (_ & c & Hc & Hc').
      destruct (decide (id = UserDefn.classId d')) as [<-|Hid].
      * exists cn. rewrite lookup_insert_eq. auto.
      * exists c. rewrite lookup_insert_ne by exact Hid. auto.
  - intros j1 j2 d1 d2 Hj1 Hj2 Hk1 Hk2 Hl1 Hl2 Heq.
    apply Hlook in Hj1 as [[-> ->]|[Hne1 Hj1]];
      apply Hlook in Hj2 as [[-> ->]|[Hne2 Hj2]]; [reflexivity| | |].
    + exfalso. destruct (Hold j2 d2 Hne2 Hj2 Hk2 Hl2) as (_ & c & Hc & Hc').
      cbn in Heq. rewrite <- Heq in Hc. destruct Hfree; congruence.
    + exfalso. destruct (Hold j1 d1 Hne1 Hj1 Hk1 Hl1) as (_ & c & Hc & Hc').
      cbn in Heq. rewrite Heq in Hc. destruct Hfree; congruence.
    + destruct (Hold j1 d1 Hne1 Hj1 Hk1 Hl1) as (H1 & _).
      destruct (Hold j2 d2 Hne2 Hj2 Hk2 Hl2) as (H2 & _).
      eapply Hdistinct; eauto.
Qed.

Lemma layoutClass_inv (fuel : nat) : forall i st st',
  layoutClass fuel i st = Ok st' -> layout_inv st ->
  layout_inv st' /\ grown (allTypes st) (allTypes st') /\
  exists d, allTypes st' !! i = Some d /\ laidOut d.
Proof.
  induction fuel as [|fuel IH]; intros i st st' H Hinv; [discriminate H|].
  cbn [layoutClass] in H.
  apply bind_Ok in H as (d0 & Hd0 & H).
  apply bind_Ok in H as ([[[st1 map] size] align] & Hbase & H).
  assert (Hst1 : layout_inv st1 /\ grown (allTypes st) (allTypes st1)).
  { destruct (String.eqb (UserDefn.baseName d0) "").
    - injection Hbase as <- _ _ _. auto using grown_refl.
    - destruct (UserDefn.baseTypeRef d0) as [b|]; [|discriminate Hbase].
      apply bind_Ok in Hbase as (base & Hb & Hbase).
      apply bind_Ok in Hbase as (st2 & Hst2 & Hbase).
      apply bind_Ok in Hbase as (base' & Hb' & Hbase).
      destruct (UserDefn.map base') as [m|]; [|discriminate Hbase].
      apply bind_Ok in Hbase as (map' & _ & Hbase).
      injection Hbase as <- _ _ _.
      destruct (UserDefn.map base).
      + injection Hst2 as <-. auto using grown_refl.
      + destruct (IH b st st2 Hst2 Hinv) as (? & ? & _). auto. }
  destruct Hst1 as [Hinv1 Hgrown1].
  apply bind_Ok in H as (h2 & Hh2 & H).
  destruct (layoutDefn_frame _ _ _ _ _ _ _ Hh2) as (Hframe & dl & Hdl & Hlaid).
  apply bind_Ok in H as (d2 & Hd2 & H). apply deref_Some in Hd2.
  assert (dl = d2) as -> by congruence.
  apply bind_Ok in H as (prefix & _ & H).
  apply bind_Ok in H as (id & _ & H).
  set (cn := prefix +:+ UserDefn.name d2) in *.
  assert (Hcn : cn <> "").
  { apply append_nonempty.
    destruct (relaid_heap_back _ _ _ i d2 Hframe Hdl) as (d1 & Hj1 & R & _).
    destruct (relaid_same _ _ R) as (_ & -> & _).
    eapply (inv_names _ Hinv1); eauto. }
  assert (Hst' : st' = mkState (allDefs st1) (<[i := UserDefn.set_class cn id d2]> h2)
                         (knownTypes st1) (<[id := cn]> (knownIds st1)) /\
                 (knownIds st1 !! id = None \/ knownIds st1 !! id = Some "")).
  { destruct (knownIds st1 !! id) as [previous|] eqn:Eid.
    - destruct (String.eqb_spec previous "") as [->|]; [|discriminate H].
      injection H as <-. auto.
    - injection H as <-. auto. }
  destruct Hst' as [-> Hfree].
  split; [apply register_inv; assumption|].
  cbn [allTypes]. split.
  - eapply grown_trans; [exact Hgrown1|].
    eapply grown_trans; [eapply relaid_heap_grown; exact Hframe|].
    apply grown_set_class. exact Hdl.
  - eexists. rewrite list_lookup_insert_eq by (eapply lookup_lt_Some; eauto).
    split; [reflexivity|]. exact Hlaid.
Qed.

Lemma layoutStruct_inv (st : State) (h : list UserDefn.t) (i : nat) :
  layout_inv st ->
  relaid_heap (fun j => j <> i) (allTypes st) h ->
  (forall d, allTypes st !! i = Some d -> UserDefn.kind d <> Class) ->
  layout_inv (set_allTypes h st).
Proof.
  intros [Hnames Hknown Hdistinct] Hframe Hi.
  assert (Hold : forall j d', h !! j = Some d' -> UserDefn.kind d' = Class ->
            allTypes st !! j = Some d').
  { intros j d' Hj Hk.
    destruct (relaid_heap_back _ _ _ j d' Hframe Hj) as (d0 & Hj0 & R & K).
    destruct (relaid_same _ _ R) as (Hkind & _).
    assert (d' = d0) as <-; [|exact Hj0].
    apply K; [|rewrite Hk; discriminate].
    intros ->. apply (Hi d0 Hj0). congruence. }
  constructor; cbn [set_allTypes allTypes knownIds].
  - intros j d' Hj.
    destruct (relaid_heap_back _ _ _ j d' Hframe Hj) as (d0 & Hj0 & R & _).
    destruct (relaid_same _ _ R) as (_ & -> & _). eauto.
  - intros j d' Hj Hk Hl. eapply Hknown; eauto.
  - intros j1 j2 d1 d2 Hj1 Hj2 Hk1 Hk2 Hl1 Hl2 Heq.
    eapply Hdistinct; eauto.
Qed.

Lemma layoutTypes_inv (fuel : nat) (xs : list nat) : forall st st',
  for_of xs
    (fun i st =>
       d ← deref (allTypes st) i;
       match UserDefn.kind d with
       | Class => layoutClass fuel i st
       | _ => h ← layoutStruct fuel i (allTypes st); Ok (set_allTypes h st)
       end) st = Ok st' ->
  layout_inv st ->
  layout_inv st' /\ grown (allTypes st) (allTypes st') /\
  forall i d, In i xs -> allTypes st' !! i = Some d ->
              UserDefn.kind d = Class -> laidOut d.
Proof.
  induction xs as [|x xs IH]; intros st st' H Hinv.
  - injection H as <-. split; [exact Hinv|]. split; [apply grown_refl|].
    intros i d [].
  - cbn [for_of] in H. apply bind_Ok in H as (st1 & Hstep & H).
    apply bind_Ok in Hstep as (d0 & Hd0 & Hstep). apply deref_Some in Hd0.
    assert (Hst1 : layout_inv st1 /\ grown (allTypes st) (allTypes st1) /\
                   forall d, allTypes st1 !! x = Some d ->
                             UserDefn.kind d = Class -> laidOut d).
    { destruct (UserDefn.kind d0) eqn:Ek.
      - destruct (layoutClass_inv _ _ _ _ Hstep Hinv) as (? & ? & d1 & Hd1 & Hl).
        split; [assumption|]. split; [assumption|].
        intros d Hd _. assert (d = d1) as -> by congruence. exact Hl.
      - apply bind_Ok in Hstep as (h & Hh & Hstep). injection Hstep as <-.
        destruct (layoutDefn_frame _ _ _ _ _ _ _ Hh) as (Hframe & _).
        split; [|split].
        + eapply layoutStruct_inv; eauto. intros d Hd. congruence.
        + eapply relaid_heap_grown; exact Hframe.
        + cbn. intros d Hd Hk.
          destruct (relaid_heap_back _ _ _ x d Hframe Hd) as (d1 & Hd1 & R & _).
          destruct (relaid_same _ _ R) as (Hkind & _). congruence.
      - apply bind_Ok in Hstep as (h & Hh & Hstep). injection Hstep as <-.
        destruct (layoutDefn_frame _ _ _ _ _ _ _ Hh) as (Hframe & _).
        split; [|split].
        + eapply layoutStruct_inv; eauto. intros d Hd. congruence.
        + eapply relaid_heap_grown; exact Hframe.
        + cbn. intros d Hd Hk.
          destruct (relaid_heap_back _ _ _ x d Hframe Hd) as (d1 & Hd1 & R & _).
          destruct (relaid_same _ _ R) as (Hkind & _). congruence. }
    destruct Hst1 as (Hinv1 & Hgrown1 & Hx).
    destruct (IH st1 st' H Hinv1) as (Hinv' & Hgrown' & Hxs).
    split; [exact Hinv'|]. split; [eapply grown_trans; eauto|].
    intros i d [<-|Hi] Hd Hk; [|eauto].
    destruct Hgrown' as [L G].
    destruct (allTypes st1 !! x) as [d1|] eqn:E1.
    + destruct (G x d1 E1) as (d' & Hd' & Hkind & _ & Hl).
      assert (d' = d) as -> by congruence.
      apply Hl. apply Hx; congruence.
    + apply lookup_ge_None in E1. apply lookup_lt_Some in Hd. lia.
Qed.

(** After a layout pass that succeeds, no two classes share an identifier. *)
Lemma layoutTypes_distinct (fuel : nat) (st st' : State) :
  layoutTypes fuel st = Ok st' ->
  (forall j d, allTypes st !! j = Some d -> UserDefn.map d = None) ->
  (forall j d, allTypes st !! j = Some d -> UserDefn.name d <> "") ->
  forall i j c1 c2,
    allTypes st' !! i = Some c1 -> allTypes st' !! j = Some c2 ->
    UserDefn.kind c1 = Class -> UserDefn.kind c2 = Class ->
    UserDefn.classId c1 = UserDefn.classId c2 -> i = j.
Proof.
  intros H Hfresh Hnames i j c1 c2 Hi Hj Hk1 Hk2 Heq.
  assert (Hinv : layout_inv st).
  { constructor.
    - exact Hnames.
    - intros k d Hk _ Hl. exfalso. apply Hl. eauto.
    - intros k1 k2 d1 d2 H1 _ _ _ Hl. exfalso. apply Hl. eauto. }
  destruct (layoutTypes_inv _ _ _ _ H Hinv) as (Hinv' & [L _] & Hlaid).
  assert (Hin : forall k c, allTypes st' !! k = Some c ->
                  In k (seq 0 (List.length (allTypes st)))).
  { intros k c Hk. apply in_seq. apply lookup_lt_Some in Hk. lia. }
  eapply (inv_distinct _ Hinv'); eauto.
Qed.

(** *** Alignments

    Every alignment the layout computes is 0, 1, 2, 4 or 8, and the size of a
    struct is rounded up to a multiple of its alignment. *)

Lemma alignment_max (a b : Z) : alignment a -> alignment b -> alignment (Z.max a b).
Proof.
  unfold alignment. intros Ha Hb.
  destruct (Z.max_spec a b) as [[_ ->]|[_ ->]]; assumption.
Qed.

Lemma builtin_alignment (pt : PrimitiveDefn.t) :
  In pt (List.map snd builtinTypes) -> alignment (PrimitiveDefn.size pt).
Proof.
  unfold alignment. cbn.
  intros H; repeat (destruct H as [<-|H]; [cbn; auto|]); destruct H.
Qed.

Lemma to_int32_divide (a x : Z) : (a | 2 ^ 32)%Z -> (a | x)%Z -> (a | JS.to_int32 x)%Z.
Proof.
  intros Ha Hx. unfold JS.to_int32.
  rewrite Z.mod_eq by lia.
  replace (x + 2 ^ 31 - 2 ^ 32 * ((x + 2 ^ 31) / 2 ^ 32) - 2 ^ 31)%Z
    with (x - 2 ^ 32 * ((x + 2 ^ 31) / 2 ^ 32))%Z by lia.
  apply Z.divide_sub_r; [exact Hx|]. apply Z.divide_mul_l. exact Ha.
Qed.

Lemma land_mask_divide (k : Z) (y : Z) :
  (0 <= k)%Z -> (2 ^ k | Z.land y (Z.lnot (Z.ones k)))%Z.
Proof.
  intros Hk. rewrite <- Z.ldiff_land, Z.ldiff_ones_r by exact Hk.
  rewrite Z.shiftl_mul_pow2 by exact Hk. apply Z.divide_factor_r.
Qed.

Lemma alignUp_divide (size a : Z) : alignment a -> (a | alignUp size a)%Z.
Proof.
  unfold alignUp, JS.and.
  intros [-> | [-> | [-> | [-> | ->]]]].
  - change (JS.to_int32 (JS.not (0 - 1))) with 0%Z. rewrite Z.land_0_r. exists 0%Z. reflexivity.
  - apply Z.divide_1_l.
  - apply to_int32_divide; [exists (2 ^ 31)%Z; reflexivity|].
    apply (land_mask_divide 1). lia.
  - apply to_int32_divide; [exists (2 ^ 30)%Z; reflexivity|].
    apply (land_mask_divide 2). lia.
  - apply to_int32_divide; [exists (2 ^ 29)%Z; reflexivity|].
    apply (land_mask_divide 3). lia.
Qed.

Lemma relaid_props (d d' : UserDefn.t) : relaid d d' -> UserDefn.props d' = UserDefn.props d.
Proof. intros [->|(m & sz & al & ->)]; reflexivity. Qed.

Lemma builtin_props_relaid (keep : nat -> Prop) (h h' : list UserDefn.t) :
  relaid_heap keep h h' -> builtin_props h -> builtin_props h'.
Proof.
  intros Hframe Hb j d' p pt Hj Hp Hr.
  destruct (relaid_heap_back _ _ _ j d' Hframe Hj) as (d & Hd & R & _).
  rewrite (relaid_props _ _ R) in Hp. eapply Hb; eauto.
Qed.

Lemma builtin_props_set_class (h : list UserDefn.t) (i : nat) (d : UserDefn.t) cn id :
  h !! i = Some d -> builtin_props h ->
  builtin_props (<[i := UserDefn.set_class cn id d]> h).
Proof.
  intros Hi Hb j d' p pt Hj Hp Hr.
  destruct (decide (j = i)) as [->|Hne].
  - rewrite list_lookup_insert_eq in Hj by (eapply lookup_lt_Some; eauto).
    injection Hj as <-. eapply Hb; eauto.
  - rewrite list_lookup_insert_ne in Hj by congruence. eapply Hb; eauto.
Qed.

Lemma aligned_heap_set_class (h : list UserDefn.t) (i : nat) (d : UserDefn.t) cn id :
  h !! i = Some d -> aligned_heap h ->
  aligned_heap (<[i := UserDefn.set_class cn id d]> h).
Proof.
  intros Hi Ha j d' Hj Hl.
  destruct (decide (j = i)) as [->|Hne].
  - rewrite list_lookup_insert_eq in Hj by (eapply lookup_lt_Some; eauto).
    injection Hj as <-. apply (Ha i d Hi Hl).
  - rewrite list_lookup_insert_ne in Hj by congruence. eapply Ha; eauto.
Qed.

Section LayoutAligned.
Variable layoutStruct : nat -> list UserDefn.t -> result (list UserDefn.t).
Hypothesis layoutStruct_aligned : forall j h h',
  aligned_heap h -> builtin_props h -> layoutStruct j h = Ok h' -> aligned_heap h'.

Lemma layoutProp_aligned (p : Prop_.t) (l l' : Layout) :
  (forall pt, Prop_.typeRef p = Some (PrimRef pt) -> In pt (List.map snd builtinTypes)) ->
  builtin_props (heap l) -> aligned_heap (heap l) -> alignment (lalign l) ->
  layoutProp layoutStruct p l = Ok l' ->
  aligned_heap (heap l') /\ alignment (lalign l').
Proof.
  unfold layoutProp. intros Hp Hb Ha Hal H.
  destruct (Prop_.typeRef p) as [r|]; [|discriminate H].
  apply bind_Ok in H as (k & Hk & H).
  destruct (if Prop_.isArray p then Class else k) eqn:Ek, r as [pt|j];
    try (injection H as <-; cbn [heap lalign]; split; [exact Ha|];
         first [ exact Hal
               | apply alignment_max; [exact Hal|];
                 first [ unfold alignment; lia
                       | apply builtin_alignment; apply Hp; reflexivity ] ]).
  apply bind_Ok in H as (st & Hst & H).
  apply bind_Ok in H as (h & Hh & H).
  apply bind_Ok in H as (st' & Hst' & H).
  apply bind_Ok in H as (stmap & Hmap & H).
  apply bind_Ok in H as (map & Hfor & H).
  injection H as <-. cbn [heap lalign].
  apply deref_Some in Hst, Hst'.
  assert (Hh' : aligned_heap h).
  { destruct (UserDefn.map st).
    - injection Hh as <-. exact Ha.
    - eapply layoutStruct_aligned; eauto. }
  split; [exact Hh'|].
  apply alignment_max; [exact Hal|].
  apply (Hh' j st' Hst').
  unfold laidOut. destruct (UserDefn.map st'); [discriminate | discriminate Hmap].
Qed.
End LayoutAligned.

Lemma layoutProps_frame (fuel : nat) (props : list Prop_.t) (l l' : Layout) :
  for_of props (layoutProp (fun j h => layoutDefn fuel j [] 0%Z 0%Z h)) l = Ok l' ->
  relaid_heap (fun _ => True) (heap l) (heap l').
Proof.
  apply (for_of_inv (fun l1 => relaid_heap (fun _ => True) (heap l) (heap l1)));
    [|apply relaid_heap_refl].
  intros p l1 l2 _ Hl1 Hp.
  eapply relaid_heap_trans; [exact Hl1|].
  eapply layoutProp_frame; [|exact Hp].
  intros j h1 h2 d1 Hj Hkind Hs.
  destruct (layoutDefn_frame _ _ _ _ _ _ _ Hs) as [[L F] _].
  split; [exact L|].
  intros j' d0 Hj'. destruct (F j' d0 Hj') as (d0' & ? & ? & K).
  exists d0'. split; [assumption|]. split; [assumption|].
  intros _ Hns. apply K; [|exact Hns].
  intros ->. congruence.
Qed.

Lemma layoutDefn_aligned (fuel : nat) : forall i map size align h h',
  aligned_heap h -> builtin_props h -> alignment align ->
  layoutDefn fuel i map size align h = Ok h' -> aligned_heap h'.
Proof.
  induction fuel as [|fuel IH]; intros i map size align h h' Ha Hb Hal H;
    [discriminate H|].
  cbn [layoutDefn] in H.
  apply bind_Ok in H as (d & Hd & H).
  apply bind_Ok in H as (l & Hl & H).
  apply bind_Ok in H as (d' & Hd' & H).
  injection H as <-.
  apply deref_Some in Hd, Hd'.
  pose proof (layoutProps_frame _ _ _ _ Hl) as Hframe. cbn [heap] in Hframe.
  assert (Hinv : relaid_heap (fun _ => True) h (heap l) /\
                 aligned_heap (heap l) /\ alignment (lalign l)).
  { revert Hl.
    apply (for_of_inv (fun l => relaid_heap (fun _ => True) h (heap l) /\
                                aligned_heap (heap l) /\ alignment (lalign l)));
      [|cbn; auto using relaid_heap_refl].
    intros p l1 l2 Hin (Hf1 & Ha1 & Hal1) Hp.
    assert (Hf2 : relaid_heap (fun _ => True) (heap l1) (heap l2)).
    { apply (layoutProps_frame fuel [p]). cbn [for_of]. rewrite Hp. reflexivity. }
    split; [eapply relaid_heap_trans; eauto|].
    apply (layoutProp_aligned (fun j h => layoutDefn fuel j [] 0%Z 0%Z h))
      with (p := p) (l := l1); [| | |exact Ha1|exact Hal1|exact Hp].
    - intros j h1 h2 Ha' Hb' Hs. eapply IH; [exact Ha'|exact Hb'| |exact Hs].
      left. reflexivity.
    - intros pt Hpt. eapply Hb; eauto.
    - eapply builtin_props_relaid; eauto. }
  destruct Hinv as (_ & Hal' & Hall).
  intros j d0 Hj Hlaid.
  destruct (decide (j = i)) as [->|Hne].
  - rewrite list_lookup_insert_eq in Hj by (eapply lookup_lt_Some; eauto).
    injection Hj as <-. split; [exact Hall|]. cbn.
    intros Hk.
    destruct (relaid_heap_back _ _ _ i d' Hframe Hd') as (d1 & Hd1 & R & _).
    assert (d1 = d) as -> by congruence.
    destruct (relaid_same _ _ R) as (Hkind & _).
    rewrite <- Hkind, Hk. apply alignUp_divide. exact Hall.
  - rewrite list_lookup_insert_ne in Hj by congruence. eapply Hal'; eauto.
Qed.

Lemma layoutClass_aligned (fuel : nat) : forall i st st',
  aligned_heap (allTypes st) -> builtin_props (allTypes st) ->
  layoutClass fuel i st = Ok st' ->
  aligned_heap (allTypes st') /\ builtin_props (allTypes st') /\
  grown (allTypes st) (allTypes st') /\
  exists d, allTypes st' !! i = Some d /\ laidOut d.
Proof.
  induction fuel as [|fuel IH]; intros i st st' Ha Hb H; [discriminate H|].
  cbn [layoutClass] in H.
  apply bind_Ok in H as (d0 & Hd0 & H).
  apply bind_Ok in H as ([[[st1 map] size] align] & Hbase & H).
  assert (Hst1 : aligned_heap (allTypes st1) /\ builtin_props (allTypes st1) /\
                 grown (allTypes st) (allTypes st1) /\ alignment align).
  { destruct (String.eqb (UserDefn.baseName d0) "").
    - injection Hbase as <- _ _ <-.
      split; [exact Ha|]. split; [exact Hb|]. split; [apply grown_refl|].
      unfold alignment. lia.
    - destruct (UserDefn.baseTypeRef d0) as [b|]; [|discriminate Hbase].
      apply bind_Ok in Hbase as (base & Hb0 & Hbase).
      apply bind_Ok in Hbase as (st2 & Hst2 & Hbase).
      apply bind_Ok in Hbase as (base' & Hb' & Hbase).
      destruct (UserDefn.map base') as [m|] eqn:Em; [|discriminate Hbase].
      apply bind_Ok in Hbase as (map' & _ & Hbase).
      injection Hbase as <- _ _ <-.
      apply deref_Some in Hb'.
      assert (Hst2' : aligned_heap (allTypes st2) /\ builtin_props (allTypes st2) /\
                      grown (allTypes st) (allTypes st2)).
      { destruct (UserDefn.map base).
        - injection Hst2 as <-. auto using grown_refl.
        - destruct (IH b st st2 Ha Hb Hst2) as (? & ? & ? & _). auto. }
      destruct Hst2' as (Ha2 & Hb2 & Hg2).
      split; [exact Ha2|]. split; [exact Hb2|]. split; [exact Hg2|].
      apply (Ha2 b base' Hb'). unfold laidOut. rewrite Em. discriminate. }
  destruct Hst1 as (Ha1 & Hb1 & Hgrown1 & Hal).
  apply bind_Ok in H as (h2 & Hh2 & H).
  destruct (layoutDefn_frame _ _ _ _ _ _ _ Hh2) as (Hframe & dl & Hdl & Hlaid).
  pose proof (layoutDefn_aligned _ _ _ _ _ _ _ Ha1 Hb1 Hal Hh2) as Ha2.
  pose proof (builtin_props_relaid _ _ _ Hframe Hb1) as Hb2.
  apply bind_Ok in H as (d2 & Hd2 & H). apply deref_Some in Hd2.
  assert (dl = d2) as -> by congruence.
  apply bind_Ok in H as (prefix & _ & H).
  apply bind_Ok in H as (id & _ & H).
  set (cn := prefix +:+ UserDefn.name d2) in *.
  assert (Hst' : allTypes st' = <[i := UserDefn.set_class cn id d2]> h2).
  { destruct (knownIds st1 !! id) as [previous|] eqn:Eid.
    - destruct (String.eqb previous ""); [|discriminate H].
      injection H as <-. reflexivity.
    - injection H as <-. reflexivity. }
  rewrite Hst'.
  split; [apply aligned_heap_set_class; assumption|].
  split; [apply builtin_props_set_class; assumption|].
  split.
  - eapply grown_trans; [exact Hgrown1|].
    eapply grown_trans; [eapply relaid_heap_grown; exact Hframe|].
    apply grown_set_class. exact Hdl.
  - eexists. rewrite list_lookup_insert_eq by (eapply lookup_lt_Some; eauto).
    split; [reflexivity|]. exact Hlaid.
Qed.

Lemma layoutTypes_aligned (fuel : nat) (xs : list nat) : forall st st',
  for_of xs
    (fun i st =>
       d ← deref (allTypes st) i;
       match UserDefn.kind d with
       | Class => layoutClass fuel i st
       | _ => h ← layoutStruct fuel i (allTypes st); Ok (set_allTypes h st)
       end) st = Ok st' ->
  aligned_heap (allTypes st) -> builtin_props (allTypes st) ->
  aligned_heap (allTypes st') /\ grown (allTypes st) (allTypes st') /\
  forall i d, In i xs -> allTypes st' !! i = Some d -> laidOut d.
Proof.
  induction xs as [|x xs IH]; intros st st' H Ha Hb.
  - injection H as <-. split; [exact Ha|]. split; [apply grown_refl|].
    intros i d [].
  - cbn [for_of] in H. apply bind_Ok in H as (st1 & Hstep & H).
    apply bind_Ok in Hstep as (d0 & Hd0 & Hstep). apply deref_Some in Hd0.
    assert (Hst1 : aligned_heap (allTypes st1) /\ builtin_props (allTypes st1) /\
                   grown (allTypes st) (allTypes st1) /\
                   exists d, allTypes st1 !! x = Some d /\ laidOut d).
    { assert (Hstruct : forall h, layoutStruct fuel x (allTypes st) = Ok h ->
                aligned_heap h /\ builtin_props h /\ grown (allTypes st) h /\
                exists d, h !! x = Some d /\ laidOut d).
      { intros h Hh.
        destruct (layoutDefn_frame _ _ _ _ _ _ _ Hh) as (Hframe & Hx).
        split; [eapply layoutDefn_aligned; eauto; left; reflexivity|].
        split; [eapply builtin_props_relaid; eauto|].
        split; [eapply relaid_heap_grown; exact Hframe | exact Hx]. }
      destruct (UserDefn.kind d0) eqn:Ek.
      - eapply layoutClass_aligned; eauto.
      - apply bind_Ok in Hstep as (h & Hh & Hstep). injection Hstep as <-.
        apply Hstruct. exact Hh.
      - apply bind_Ok in Hstep as (h & Hh & Hstep). injection Hstep as <-.
        apply Hstruct. exact Hh. }
    destruct Hst1 as (Ha1 & Hb1 & Hgrown1 & dx & Hdx & Hlx).
    destruct (IH st1 st' H Ha1 Hb1) as (Ha' & Hgrown' & Hxs).
    split; [exact Ha'|]. split; [eapply grown_trans; eauto|].
    intros i d [<-|Hi] Hd; [|eauto].
    destruct Hgrown' as [L G].
    destruct (G x dx Hdx) as (d' & Hd' & _ & _ & Hl).
    assert (d' = d) as -> by congruence.
    apply Hl. exact Hlx.
Qed.

(** *** Dotted names

    A class gets its dotted name once, from the dotted name of its base. *)

Lemma relaid_baseName (d d' : UserDefn.t) :
  relaid d d' -> UserDefn.baseName d' = UserDefn.baseName d.
Proof. intros [->|(m & sz & al & ->)]; reflexivity. Qed.

Lemma kept_refl (h : list UserDefn.t) : kept h h.
Proof. intros j d Hj. exists d. auto. Qed.

Lemma kept_trans (h1 h2 h3 : list UserDefn.t) : kept h1 h2 -> kept h2 h3 -> kept h1 h3.
Proof.
  intros H12 H23 j d Hj.
  destruct (H12 j d Hj) as (d2 & Hj2 & B2 & N2 & L2 & C2).
  destruct (H23 j d2 Hj2) as (d3 & Hj3 & B3 & N3 & L3 & C3).
  exists d3. split; [exact Hj3|]. split; [congruence|]. split; [congruence|].
  split; [auto|]. intros Hc. rewrite <- (C2 Hc). apply C3.
  unfold classed. rewrite (C2 Hc). exact Hc.
Qed.

Lemma relaid_heap_kept (keep : nat -> Prop) (h h' : list UserDefn.t) :
  relaid_heap keep h h' -> kept h h'.
Proof.
  intros [L F] j d Hj. destruct (F j d Hj) as (d' & Hj' & R & _).
  destruct (relaid_same _ _ R) as (_ & _ & _ & Hcn & Hb & Hl).
  exists d'. split; [exact Hj'|]. split; [exact Hb|].
  split; [apply relaid_baseName; exact R|]. auto.
Qed.

Lemma based_relaid (keep : nat -> Prop) (h h' : list UserDefn.t) :
  relaid_heap keep h h' -> based h -> based h'.
Proof.
  intros Hframe Hb j d' Hj.
  destruct (relaid_heap_back _ _ _ j d' Hframe Hj) as (d & Hd & R & _).
  destruct (relaid_same _ _ R) as (_ & Hn & _ & _ & Hbase & _).
  destruct (Hb j d Hd) as (Hname & Hbases).
  split; [congruence|].
  intros b Hb'. rewrite Hbase in Hb'.
  destruct (Hbases b Hb') as (Hne & Hbn & base & Hbase0 & Hk).
  split; [exact Hne|]. split; [rewrite (relaid_baseName _ _ R); exact Hbn|].
  destruct Hframe as [L F].
  destruct (F b base Hbase0) as (base' & Hbase' & R' & _).
  destruct (relaid_same _ _ R') as (Hk' & _).
  exists base'. split; [exact Hbase' | congruence].
Qed.

Lemma lookup_set_class (h : list UserDefn.t) (i j : nat) (d d' : UserDefn.t) cn id :
  h !! i = Some d ->
  (<[i := UserDefn.set_class cn id d]> h) !! j = Some d' ->
  (j = i /\ d' = UserDefn.set_class cn id d) \/ (j <> i /\ h !! j = Some d').
Proof.
  intros Hi Hj. destruct (decide (j = i)) as [->|Hne].
  - rewrite list_lookup_insert_eq in Hj by (eapply lookup_lt_Some; eauto).
    left. split; congruence.
  - rewrite list_lookup_insert_ne in Hj by congruence. right. auto.
Qed.

(** The last step of [layoutClass], for the names. *)
Lemma register_named (st : State) (h : list UserDefn.t) (i : nat) (d : UserDefn.t)
  (prefix : string) (id : Z) :
  naming_inv st ->
  relaid_heap (fun j => j <> i) (allTypes st) h ->
  h !! i = Some d ->
  match UserDefn.baseTypeRef d with
  | Some b => exists base, h !! b = Some base /\ laidOut base /\
                prefix = UserDefn.className base +:+ ">"
  | None => prefix = ""
  end ->
  computeClassId (prefix +:+ UserDefn.name d) = Ok id ->
  (knownIds st !! id = None \/ knownIds st !! id = Some "") ->
  naming_inv (mkState (allDefs st)
                (<[i := UserDefn.set_class (prefix +:+ UserDefn.name d) id d]> h)
                (knownTypes st) (<[id := prefix +:+ UserDefn.name d]> (knownIds st))) /\
  kept (allTypes st)
    (<[i := UserDefn.set_class (prefix +:+ UserDefn.name d) id d]> h).
Proof.
  intros [Hbased Hclass Hid Hknown Hdotted] Hframe Hi Hprefix Hcid Hfree.
  set (cn := prefix +:+ UserDefn.name d) in *.
  pose proof (based_relaid _ _ _ Hframe Hbased) as Hbased'.
  destruct (Hbased' i d Hi) as (Hname & Hbases).
  assert (Hcn : cn <> "") by (apply append_nonempty; exact Hname).
  (* what the heap [h] has is what the state had, but for the layouts *)
  assert (Hback : forall j d', h !! j = Some d' ->
            exists d0, allTypes st !! j = Some d0 /\ relaid d0 d' /\
                       (j <> i -> UserDefn.kind d' = Class -> d' = d0)).
  { intros j d' Hj.
    destruct (relaid_heap_back _ _ _ j d' Hframe Hj) as (d0 & Hj0 & R & K).
    exists d0. split; [exact Hj0|]. split; [exact R|].
    intros Hne Hk. apply K; [exact Hne | rewrite Hk; discriminate]. }
  (* the base has its dotted name *)
  assert (Hbase : forall b, UserDefn.baseTypeRef d = Some b ->
            b <> i /\ exists base, h !! b = Some base /\ allTypes st !! b = Some base /\
                                   classed base /\ prefix = UserDefn.className base +:+ ">").
  { intros b Hb. rewrite Hb in Hprefix.
    destruct Hprefix as (base & Hbase & Hlaid & ->).
    destruct (Hbases b Hb) as (Hne & _ & base' & Hbase' & Hk).
    assert (base' = base) as -> by congruence.
    split; [exact Hne|]. exists base.
    destruct (Hback b base Hbase) as (base0 & Hbase0 & _ & K).
    assert (base = base0) as <- by (apply K; assumption).
    split; [exact Hbase|]. split; [exact Hbase0|]. split; [|reflexivity].
    eapply Hclass; eauto. }
  destruct (Hback i d Hi) as (d1 & Hd1 & R1 & _).
  destruct (relaid_same _ _ R1) as (Hk1 & Hn1 & Hid1 & Hcn1 & Hb1 & _).
  (* the class had no dotted name yet: its identifier would be registered *)
  assert (Hnew : UserDefn.className d1 = "").
  { destruct (String.eqb_spec (UserDefn.className d1) "") as [E|Hc]; [exact E|].
    exfalso.
    assert (E : UserDefn.className d1 = cn).
    { pose proof (Hdotted i d1 Hd1 Hc) as Hdot. unfold dotted in Hdot.
      rewrite <- Hb1 in Hdot. unfold cn.
      destruct (UserDefn.baseTypeRef d) as [b|] eqn:Eb.
      - destruct Hdot as (base0 & Hbase0 & _ & ->).
        destruct (Hbase b eq_refl) as (_ & base & _ & Hbase' & _ & ->).
        assert (base0 = base) as -> by congruence. congruence.
      - rewrite Hprefix, Hdot. symmetry. exact Hn1. }
    pose proof (Hid i d1 Hd1 Hc) as Hid'. rewrite E, Hcid in Hid'.
    injection Hid' as Hid'.
    destruct (Hknown i d1 Hd1 Hc) as (c & Hc1 & Hc2).
    rewrite <- Hid' in Hc1. destruct Hfree; congruence. }
  split.
  - constructor; cbn [allTypes knownIds].
    + (* based *)
      intros j d' Hj. apply (lookup_set_class _ _ _ _ _ _ _ Hi) in Hj as [[-> ->]|[Hne Hj]].
      * cbn. split; [exact Hname|]. intros b Hb.
        destruct (Hbases b Hb) as (Hne & Hbn & base & Hbase' & Hk).
        split; [exact Hne|]. split; [exact Hbn|].
        exists base. rewrite list_lookup_insert_ne by congruence. auto.
      * destruct (Hbased' j d' Hj) as (Hname' & Hbases').
        split; [exact Hname'|]. intros b Hb.
        destruct (Hbases' b Hb) as (Hneb & Hbn & base & Hbase' & Hk).
        split; [exact Hneb|]. split; [exact Hbn|].
        destruct (decide (b = i)) as [->|Hbi].
        -- exists (UserDefn.set_class cn id d).
           rewrite list_lookup_insert_eq by (eapply lookup_lt_Some; eauto).
           split; [reflexivity|]. cbn. congruence.
        -- exists base. rewrite list_lookup_insert_ne by congruence. auto.
    + (* classes that are laid out have their name *)
      intros j d' Hj Hk Hl. apply (lookup_set_class _ _ _ _ _ _ _ Hi) in Hj as [[-> ->]|[Hne Hj]].
      * exact Hcn.
      * destruct (Hback j d' Hj) as (d0 & Hj0 & _ & K).
        assert (d' = d0) as -> by (apply K; assumption).
        eapply Hclass; eauto.
    + (* a name has its identifier *)
      intros j d' Hj Hc. apply (lookup_set_class _ _ _ _ _ _ _ Hi) in Hj as [[-> ->]|[Hne Hj]].
      * cbn. exact Hcid.
      * destruct (Hback j d' Hj) as (d0 & Hj0 & R & _).
        destruct (relaid_same _ _ R) as (_ & _ & -> & Hcn0 & _).
        rewrite Hcn0. apply (Hid j d0 Hj0). unfold classed. congruence.
    + (* the identifier is registered *)
      intros j d' Hj Hc. apply (lookup_set_class _ _ _ _ _ _ _ Hi) in Hj as [[-> ->]|[Hne Hj]].
      * cbn. exists cn. rewrite lookup_insert_eq. auto.
      * destruct (Hback j d' Hj) as (d0 & Hj0 & R & _).
        destruct (relaid_same _ _ R) as (_ & _ & Hid0 & Hcn0 & _).
        destruct (Hknown j d0 Hj0) as (c & Hc1 & Hc2); [unfold classed; congruence|].
        rewrite Hid0.
        destruct (decide (id = UserDefn.classId d0)) as [<-|Hne'].
        -- exists cn. rewrite lookup_insert_eq. auto.
        -- exists c. rewrite lookup_insert_ne by exact Hne'. auto.
    + (* the name is dotted *)
      intros j d' Hj Hc. apply (lookup_set_class _ _ _ _ _ _ _ Hi) in Hj as [[-> ->]|[Hne Hj]].
      * unfold dotted. cbn.
        destruct (UserDefn.baseTypeRef d) as [b|] eqn:Eb.
        -- destruct (Hbase b eq_refl) as (Hbi & base & Hbase2 & _ & Hcb & Hp).
           exists base. rewrite list_lookup_insert_ne by congruence.
           split; [exact Hbase2|]. split; [exact Hcb|]. unfold cn. rewrite Hp. reflexivity.
        -- unfold cn. rewrite Hprefix. reflexivity.
      * destruct (Hback j d' Hj) as (d0 & Hj0 & R & _).
        destruct (relaid_same _ _ R) as (_ & Hn0 & _ & Hcn0 & Hb0 & _).
        assert (Hc0 : classed d0) by (unfold classed; congruence).
        pose proof (Hdotted j d0 Hj0 Hc0) as Hdot. unfold dotted in *.
        rewrite Hb0, Hcn0, Hn0.
        destruct (UserDefn.baseTypeRef d0) as [b|]; [|exact Hdot].
        destruct Hdot as (base0 & Hbase0 & Hcb0 & E).
        assert (Hbi : b <> i).
        { intros ->. apply Hcb0. congruence. }
        destruct Hframe as [L F].
        destruct (F b base0 Hbase0) as (base' & Hbase' & R' & _).
        destruct (relaid_same _ _ R') as (_ & _ & _ & Hcn' & _).
        exists base'. rewrite list_lookup_insert_ne by congruence.
        split; [exact Hbase'|]. split; [unfold classed; congruence|]. congruence.
  - intros j d0 Hj0.
    destruct (relaid_heap_kept _ _ _ Hframe j d0 Hj0) as (d' & Hj' & B & N & L & C).
    destruct (decide (j = i)) as [->|Hji].
    + assert (d0 = d1) as -> by congruence.
      assert (d' = d) as -> by congruence.
      eexists. rewrite list_lookup_insert_eq by (eapply lookup_lt_Some; eauto).
      split; [reflexivity|]. cbn. split; [exact B|]. split; [exact N|].
      split; [exact L|]. intros Hc. contradiction.
    + exists d'. rewrite list_lookup_insert_ne by congruence. auto.
Qed.

Lemma layoutClass_named (fuel : nat) : forall i st st',
  layoutClass fuel i st = Ok st' -> naming_inv st ->
  naming_inv st' /\ kept (allTypes st) (allTypes st').
Proof.
  induction fuel as [|fuel IH]; intros i st st' H Hinv; [discriminate H|].
  cbn [layoutClass] in H.
  apply bind_Ok in H as (d0 & Hd0 & H). apply deref_Some in Hd0.
  apply bind_Ok in H as ([[[st1 map] size] align] & Hbase & H).
  assert (Hst1 : naming_inv st1 /\ kept (allTypes st) (allTypes st1) /\
                 forall b, UserDefn.baseTypeRef d0 = Some b ->
                   exists base, allTypes st1 !! b = Some base /\ laidOut base).
  { destruct (String.eqb_spec (UserDefn.baseName d0) "") as [Ebn|Ebn].
    - injection Hbase as <- _ _ _.
      split; [exact Hinv|]. split; [apply kept_refl|].
      intros b Hb. exfalso.
      destruct (nm_based _ Hinv i d0 Hd0) as (_ & Hbases).
      destruct (Hbases b Hb) as (_ & Hbn & _). contradiction.
    - destruct (UserDefn.baseTypeRef d0) as [b|]; [|discriminate Hbase].
      apply bind_Ok in Hbase as (base & Hb & Hbase).
      apply bind_Ok in Hbase as (st2 & Hst2 & Hbase).
      apply bind_Ok in Hbase as (base' & Hb' & Hbase). apply deref_Some in Hb'.
      destruct (UserDefn.map base') as [m|] eqn:Em; [|discriminate Hbase].
      apply bind_Ok in Hbase as (map' & _ & Hbase).
      injection Hbase as <- _ _ _.
      assert (Hst2' : naming_inv st2 /\ kept (allTypes st) (allTypes st2)).
      { destruct (UserDefn.map base).
        - injection Hst2 as <-. auto using kept_refl.
        - apply (IH b st st2 Hst2 Hinv). }
      destruct Hst2' as (Hinv2 & Hkept2).
      split; [exact Hinv2|]. split; [exact Hkept2|].
      intros b' Hb''. injection Hb'' as <-.
      exists base'. split; [exact Hb'|]. unfold laidOut. rewrite Em. discriminate. }
  destruct Hst1 as (Hinv1 & Hkept1 & Hlaid1).
  apply bind_Ok in H as (h2 & Hh2 & H).
  destruct (layoutDefn_frame _ _ _ _ _ _ _ Hh2) as (Hframe & _).
  apply bind_Ok in H as (d2 & Hd2 & H). apply deref_Some in Hd2.
  apply bind_Ok in H as (prefix & Hprefix & H).
  apply bind_Ok in H as (id & Hcid & H).
  assert (Hst' : st' = mkState (allDefs st1)
                         (<[i := UserDefn.set_class (prefix +:+ UserDefn.name d2) id d2]> h2)
                         (knownTypes st1)
                         (<[id := prefix +:+ UserDefn.name d2]> (knownIds st1)) /\
                 (knownIds st1 !! id = None \/ knownIds st1 !! id = Some "")).
  { destruct (knownIds st1 !! id) as [previous|] eqn:Eid.
    - destruct (String.eqb_spec previous "") as [->|]; [|discriminate H].
      injection H as <-. auto.
    - injection H as <-. auto. }
  destruct Hst' as [-> Hfree].
  destruct (Hkept1 i d0 Hd0) as (d1 & Hd1 & Hb1 & _).
  destruct (relaid_heap_kept _ _ _ Hframe i d1 Hd1) as (d2' & Hd2' & Hb2 & _).
  assert (d2' = d2) as -> by congruence.
  destruct (register_named st1 h2 i d2 prefix id Hinv1 Hframe Hd2) as (Hinv' & Hkept');
    [|exact Hcid|exact Hfree|].
  { destruct (UserDefn.baseTypeRef d2) as [b|] eqn:Eb.
    - apply bind_Ok in Hprefix as (base2 & Hbase2 & Hprefix).
      apply deref_Some in Hbase2. injection Hprefix as <-.
      exists base2. split; [exact Hbase2|]. split; [|reflexivity].
      destruct (Hlaid1 b) as (base1 & Hbase1 & Hl1); [congruence|].
      destruct (relaid_heap_kept _ _ _ Hframe b base1 Hbase1) as (base2' & Hbase2' & _ & _ & L & _).
      assert (base2' = base2) as -> by congruence. auto.
    - injection Hprefix as <-. reflexivity. }
  split; [exact Hinv'|]. cbn [allTypes].
  eapply kept_trans; eauto.
Qed.

(** The layout of a struct, or of anything that is no class, at [i]. *)
Lemma layoutStruct_named (st : State) (h : list UserDefn.t) (i : nat) :
  naming_inv st ->
  relaid_heap (fun j => j <> i) (allTypes st) h ->
  (forall d, allTypes st !! i = Some d -> UserDefn.kind d <> Class) ->
  naming_inv (set_allTypes h st).
Proof.
  intros [Hbased Hclass Hid Hknown Hdotted] Hframe Hi.
  assert (Hback : forall j d', h !! j = Some d' ->
            exists d0, allTypes st !! j = Some d0 /\ relaid d0 d' /\
                       (UserDefn.kind d' = Class -> d' = d0)).
  { intros j d' Hj.
    destruct (relaid_heap_back _ _ _ j d' Hframe Hj) as (d0 & Hj0 & R & K).
    exists d0. split; [exact Hj0|]. split; [exact R|].
    intros Hk. apply K; [|rewrite Hk; discriminate].
    intros ->. apply (Hi d0 Hj0).
    destruct (relaid_same _ _ R) as (<- & _). exact Hk. }
  constructor; cbn [set_allTypes allTypes knownIds].
  - eapply based_relaid; eauto.
  - intros j d' Hj Hk Hl.
    destruct (Hback j d' Hj) as (d0 & Hj0 & _ & K).
    assert (d' = d0) as -> by (apply K; exact Hk). eapply Hclass; eauto.
  - intros j d' Hj Hc.
    destruct (Hback j d' Hj) as (d0 & Hj0 & R & _).
    destruct (relaid_same _ _ R) as (_ & _ & -> & Hcn0 & _).
    rewrite Hcn0. apply (Hid j d0 Hj0). unfold classed. congruence.
  - intros j d' Hj Hc.
    destruct (Hback j d' Hj) as (d0 & Hj0 & R & _).
    destruct (relaid_same _ _ R) as (_ & _ & -> & Hcn0 & _).
    apply (Hknown j d0 Hj0). unfold classed. congruence.
  - intros j d' Hj Hc.
    destruct (Hback j d' Hj) as (d0 & Hj0 & R & _).
    destruct (relaid_same _ _ R) as (_ & Hn0 & _ & Hcn0 & Hb0 & _).
    assert (Hc0 : classed d0) by (unfold classed; congruence).
    pose proof (Hdotted j d0 Hj0 Hc0) as Hdot. unfold dotted in *.
    rewrite Hb0, Hcn0, Hn0.
    destruct (UserDefn.baseTypeRef d0) as [b|]; [|exact Hdot].
    destruct Hdot as (base0 & Hbase0 & Hcb0 & E).
    destruct Hframe as [L F].
    destruct (F b base0 Hbase0) as (base' & Hbase' & R' & _).
    destruct (relaid_same _ _ R') as (_ & _ & _ & Hcn' & _).
    exists base'. split; [exact Hbase'|]. split; [unfold classed; congruence|]. congruence.
Qed.

Lemma layoutTypes_named (fuel : nat) (st st' : State) :
  layoutTypes fuel st = Ok st' -> naming_inv st -> naming_inv st'.
Proof.
  unfold layoutTypes. intros H Hinv. revert H.
  apply (for_of_inv naming_inv); [|exact Hinv].
  intros x st1 st2 _ Hinv1 Hstep.
  apply bind_Ok in Hstep as (d0 & Hd0 & Hstep). apply deref_Some in Hd0.
  assert (Hstruct : UserDefn.kind d0 <> Class ->
            forall h, layoutStruct fuel x (allTypes st1) = Ok h ->
              naming_inv (set_allTypes h st1)).
  { intros Hk h Hh.
    destruct (layoutDefn_frame _ _ _ _ _ _ _ Hh) as (Hframe & _).
    eapply layoutStruct_named; eauto. intros d Hd. congruence. }
  destruct (UserDefn.kind d0) eqn:Ek.
  - apply (layoutClass_named _ _ _ _ Hstep Hinv1).
  - apply bind_Ok in Hstep as (h & Hh & Hstep). injection Hstep as <-.
    apply Hstruct; [discriminate | exact Hh].
  - apply bind_Ok in Hstep as (h & Hh & Hstep). injection Hstep as <-.
    apply Hstruct; [discriminate | exact Hh].
Qed.

(** ** The virtual tables *)

Lemma next_not_init (fuel : nat) : forall h it name inherited it',
  VirtualMethodNameIterator.next fuel h it = Ok (name, inherited, it') ->
  name <> "init".
Proof.
  induction fuel as [|fuel IH]; intros h it name inherited it' H; [discriminate H|].
  cbn [VirtualMethodNameIterator.next] in H.
  apply bind_Ok in H as (c & _ & H).
  destruct (UserDefn.methods c !! VirtualMethodNameIterator.i it) as [m|].
  - destruct (Method.kind m); try (eapply IH; exact H).
    destruct (String.eqb_spec (Method.name m) "init") as [|Hne]; [eapply IH; exact H|].
    apply bind_Ok in H as (seen & _ & H).
    destruct seen; [eapply IH; exact H|].
    injection H as <- _ _. exact Hne.
  - destruct (UserDefn.baseTypeRef c); [eapply IH; exact H|].
    injection H as <- _ _. discriminate.
Qed.

Lemma collectVirtuals_no_init (fuel : nat) : forall h cls mnames vtable vtable',
  collectVirtuals fuel h cls mnames vtable = Ok vtable' ->
  Forall (fun v => VirtualEntry.name v <> "init") vtable ->
  Forall (fun v => VirtualEntry.name v <> "init") vtable'.
Proof.
  induction fuel as [|fuel IH]; intros h cls mnames vtable vtable' H Hvt;
    [discriminate H|].
  cbn [collectVirtuals] in H.
  apply bind_Ok in H as ([[mname isInherited] mnames'] & Hnext & H).
  destruct (String.eqb mname ""); [injection H as <-; exact Hvt|].
  apply bind_Ok in H as (c & _ & H).
  apply bind_Ok in H as (reverseCases & _ & H).
  apply bind_Ok in H as (def & _ & H).
  eapply IH; [exact H|].
  apply Forall_app. split; [exact Hvt|].
  constructor; [|constructor]. cbn.
  eapply next_not_init. exact Hnext.
Qed.

Lemma createVirtualsFor_no_init (fuel : nat) (cls : nat) (h h' : list UserDefn.t) :
  createVirtualsFor fuel cls h = Ok h' -> no_init h -> no_init h'.
Proof.
  unfold createVirtualsFor. intros H Hh.
  apply bind_Ok in H as (vtable & Hvt & H).
  apply bind_Ok in H as (c & Hc & H). injection H as <-.
  apply deref_Some in Hc.
  intros j d vt Hj Hd.
  destruct (decide (j = cls)) as [->|Hne].
  - rewrite list_lookup_insert_eq in Hj by (eapply lookup_lt_Some; eauto).
    injection Hj as <-. cbn in Hd. injection Hd as <-.
    eapply collectVirtuals_no_init; [exact Hvt | constructor].
  - rewrite list_lookup_insert_ne in Hj by congruence. eauto.
Qed.

Lemma createVirtuals_no_init (fuel : nat) (st st' : State) :
  createVirtuals fuel st = Ok st' -> no_init (allTypes st) -> no_init (allTypes st').
Proof.
  unfold createVirtuals. intros H Hst.
  apply bind_Ok in H as (h & Hh & H). injection H as <-. cbn [set_allTypes allTypes].
  revert Hh. apply (for_of_inv no_init); [|exact Hst].
  intros i h1 h2 _ Hh1 Hbody.
  apply bind_Ok in Hbody as (t & _ & Hbody).
  destruct (UserDefn.kind t); try (injection Hbody as <-; exact Hh1).
  eapply createVirtualsFor_no_init; eauto.
Qed.

(** ** The lexical collector *)



(** ** The argument parser *)




(** ** The macros and unknown type names *)

Lemma findType_unknown (st : State) (name : string) :
  Dict.get builtinTypes name = None -> knownTypes st !! name = None ->
  exists e, findType st name = Throw e.
Proof.
  intros Hb Hk. unfold findType, knownTypes_hasOwnProperty. rewrite Hb, Hk.
  destruct (knownTypes st !! "hasOwnProperty"); cbn; eauto.
Qed.

Lemma arrMacro_unknown (st : State) expand (s : string) (p : nat) (ms : found) :
  Dict.get builtinTypes (grp s ms 1) = None ->
  knownTypes st !! grp s ms 1 = None ->
  exists e, arrMacro st expand s p ms = Throw e.
Proof.
  intros Hb Hk. destruct (findType_unknown st _ Hb Hk) as (e & He).
  exists e. unfold arrMacro. rewrite He. reflexivity.
Qed.

Lemma accMacro_unknown (st : State) expand (s : string) (p : nat) (ms : found) :
  knownTypes st !! grp s ms 1 = None -> JS.inherited (grp s ms 1) = false ->
  accMacro st expand s p ms = Ok (s, (p + String.length (RegExp.matched s ms))%nat).
Proof.
  intros Hk Hi. unfold accMacro, JS.read. rewrite Hk, Hi. reflexivity.
Qed.



(** ** The budget

    A larger budget changes no result: what a pass returns or throws with
    some budget, it returns or throws with every larger one. *)

Lemma refines_refl {A} (r : result A) : refines r r.
Proof. right. reflexivity. Qed.

Lemma refines_bind {A B} (c c' : result A) (f f' : A -> result B) :
  refines c c' -> (forall a, refines (f a) (f' a)) -> refines (c ≫= f) (c' ≫= f').
Proof.
  intros [->| ->] Hf; [left; reflexivity|].
  destruct c' as [a| |]; cbn; [apply Hf | right; reflexivity | left; reflexivity].
Qed.

Ltac mono H :=
  repeat first
    [ apply refines_refl
    | apply H
    | apply refines_bind; [ | intros ? ]
    | match goal with
      | |- refines (match ?x with _ => _ end) _ => destruct x
      | |- refines (if ?b then _ else _) _ => destruct b
      end ].

Section Monotone.
Variable st : State.
Variables expand expand' : string -> result string.
Hypothesis expand_refines : forall t, refines (expand t) (expand' t).

Lemma loadFromRef_mono ref type s left operation where_ rhs nomatch :
  refines (loadFromRef st expand ref type s left operation where_ rhs nomatch)
          (loadFromRef st expand' ref type s left operation where_ rhs nomatch).
Proof. unfold loadFromRef. mono expand_refines. Qed.

Lemma accMacro_mono s p ms :
  refines (accMacro st expand s p ms) (accMacro st expand' s p ms).
Proof.
  unfold accMacro. mono expand_refines; apply loadFromRef_mono.
Qed.

Lemma arrMacro_mono s p ms :
  refines (arrMacro st expand s p ms) (arrMacro st expand' s p ms).
Proof.
  unfold arrMacro. mono expand_refines; apply loadFromRef_mono.
Qed.

Lemma newMacro_mono s p ms :
  refines (newMacro st expand s p ms) (newMacro st expand' s p ms).
Proof. unfold newMacro. mono expand_refines. Qed.
End Monotone.

Lemma myExecFrom_mono (re : regex) macro macro' (n : nat) :
  (forall s p ms, refines (macro s p ms) (macro' s p ms)) ->
  forall m text lastIndex, n <= m ->
    refines (myExecFrom n re macro text lastIndex)
            (myExecFrom m re macro' text lastIndex).
Proof.
  intros Hmacro. induction n as [|n IH]; intros m text lastIndex Hle.
  - destruct m; cbn [myExecFrom]; destruct (RegExp.exec re lastIndex text);
      first [apply refines_refl | left; reflexivity].
  - destruct m as [|m]; [lia|]. cbn [myExecFrom].
    destruct (RegExp.exec re lastIndex text); [|apply refines_refl].
    apply refines_bind; [apply Hmacro|].
    intros [newText newStart]. apply IH. lia.
Qed.

Lemma expandMacrosIn_mono (st : State) (n : nat) :
  forall m text, n <= m ->
    refines (expandMacrosIn n st text) (expandMacrosIn m st text).
Proof.
  induction n as [|n IH]; intros m text Hle; [left; reflexivity|].
  destruct m as [|m]; [lia|]. cbn [expandMacrosIn]. unfold myExec.
  assert (Hexp : forall t, refines (expandMacrosIn n st t) (expandMacrosIn m st t))
    by (intros t; apply IH; lia).
  apply refines_bind; [apply myExecFrom_mono; [apply accMacro_mono; exact Hexp | lia]|].
  intros t1.
  apply refines_bind; [apply myExecFrom_mono; [apply arrMacro_mono; exact Hexp | lia]|].
  intros t2.
  apply myExecFrom_mono; [apply newMacro_mono; exact Hexp | lia].
Qed.

Lemma expandMacrosIn_more (st : State) (n : nat) (text : string) (r : result string) :
  expandMacrosIn n st text = r -> r <> Diverge ->
  forall budget, expandMacrosIn (n + budget) st text = r.
Proof.
  intros Hr Hd budget.
  destruct (expandMacrosIn_mono st n (n + budget) text ltac:(lia)) as [H|H]; congruence.
Qed.

Lemma for_of_mono {A S} (xs : list A) (body body' : A -> S -> result S) :
  (forall x s, refines (body x s) (body' x s)) ->
  forall s, refines (for_of xs body s) (for_of xs body' s).
Proof.
  intros Hbody. induction xs as [|x xs IH]; intros s; cbn [for_of].
  - apply refines_refl.
  - apply refines_bind; [apply Hbody | exact IH].
Qed.

Ltac mono_rec IH :=
  repeat first
    [ apply refines_refl
    | (apply IH; lia)
    | apply refines_bind; [ | intros ? ]
    | apply for_of_mono; intros ? ?
    | match goal with
      | |- refines (match ?x with _ => _ end) _ => destruct x
      | |- refines (match ?x with _ => _ end _) _ => destruct x
      | |- refines (if ?b then _ else _) _ => destruct b
      end
    | progress cbv beta ].

Lemma checkRecursionForStruct_mono (n : nat) : forall m kt i h, n <= m ->
  refines (checkRecursionForStruct n kt i h) (checkRecursionForStruct m kt i h).
Proof.
  induction n as [|n IH]; intros m kt i h Hle; [left; reflexivity|].
  destruct m as [|m]; [lia|]. cbn [checkRecursionForStruct].
  mono_rec IH.
Qed.

Lemma checkRecursionForClass_mono (n : nat) : forall m i h, n <= m ->
  refines (checkRecursionForClass n i h) (checkRecursionForClass m i h).
Proof.
  induction n as [|n IH]; intros m i h Hle; [left; reflexivity|].
  destruct m as [|m]; [lia|]. cbn [checkRecursionForClass].
  mono_rec IH.
Qed.

Lemma checkRecursion_mono (n m : nat) st : n <= m ->
  refines (checkRecursion n st) (checkRecursion m st).
Proof.
  intros Hle. unfold checkRecursion.
  mono_rec checkRecursionForStruct_mono.
  all: try (apply checkRecursionForStruct_mono; lia).
  all: try (apply checkRecursionForClass_mono; lia).
Qed.

Lemma layoutProp_mono ls ls' p l :
  (forall j h, refines (ls j h) (ls' j h)) ->
  refines (layoutProp ls p l) (layoutProp ls' p l).
Proof.
  intros H. unfold layoutProp. mono_rec H. all: apply H.
Qed.

Lemma layoutDefn_mono (n : nat) : forall m i map size align h, n <= m ->
  refines (layoutDefn n i map size align h) (layoutDefn m i map size align h).
Proof.
  induction n as [|n IH]; intros m i map size align h Hle; [left; reflexivity|].
  destruct m as [|m]; [lia|]. cbn [layoutDefn].
  apply refines_bind; [apply refines_refl|]. intros d.
  apply refines_bind.
  - apply for_of_mono. intros p l. apply layoutProp_mono.
    intros j h'. apply IH. lia.
  - intros l. apply refines_refl.
Qed.

Lemma layoutClass_mono (n : nat) : forall m i st, n <= m ->
  refines (layoutClass n i st) (layoutClass m i st).
Proof.
  induction n as [|n IH]; intros m i st Hle; [left; reflexivity|].
  destruct m as [|m]; [lia|]. cbn [layoutClass].
  mono_rec IH.
  all: try (apply layoutDefn_mono; lia).
Qed.

Lemma layoutTypes_mono (n m : nat) st : n <= m ->
  refines (layoutTypes n st) (layoutTypes m st).
Proof.
  intros Hle. unfold layoutTypes, layoutStruct.
  mono_rec layoutClass_mono.
  all: try (apply layoutClass_mono; lia).
  all: try (apply layoutDefn_mono; lia).
Qed.

Lemma findMethodImplFor_mono (n : nat) : forall m h cls stopAt name, n <= m ->
  refines (findMethodImplFor n h cls stopAt name) (findMethodImplFor m h cls stopAt name).
Proof.
  induction n as [|n IH]; intros m h cls stopAt name Hle; [left; reflexivity|].
  destruct m as [|m]; [lia|]. cbn [findMethodImplFor].
  mono_rec IH.
Qed.

Lemma next_mono (n : nat) : forall m h it, n <= m ->
  refines (VirtualMethodNameIterator.next n h it) (VirtualMethodNameIterator.next m h it).
Proof.
  induction n as [|n IH]; intros m h it Hle; [left; reflexivity|].
  destruct m as [|m]; [lia|]. cbn [VirtualMethodNameIterator.next].
  mono_rec IH.
Qed.

Lemma collectCases_mono (n : nat) : forall m h stopAt mname subs reverseCases, n <= m ->
  refines (collectCases n h stopAt mname subs reverseCases)
          (collectCases m h stopAt mname subs reverseCases).
Proof.
  induction n as [|n IH]; intros m h stopAt mname subs reverseCases Hle; [left; reflexivity|].
  destruct m as [|m]; [lia|]. cbn [collectCases].
  mono_rec IH.
  all: try (apply findMethodImplFor_mono; lia).
Qed.

Lemma collectVirtuals_mono (n : nat) : forall m h cls mnames vtable, n <= m ->
  refines (collectVirtuals n h cls mnames vtable) (collectVirtuals m h cls mnames vtable).
Proof.
  induction n as [|n IH]; intros m h cls mnames vtable Hle; [left; reflexivity|].
  destruct m as [|m]; [lia|]. cbn [collectVirtuals].
  mono_rec IH.
  all: try (apply next_mono; lia).
  all: try (apply collectCases_mono; lia).
  all: try (apply findMethodImplFor_mono; lia).
Qed.

Lemma createVirtuals_mono (n m : nat) st : n <= m ->
  refines (createVirtuals n st) (createVirtuals m st).
Proof.
  intros Hle. unfold createVirtuals, createVirtualsFor.
  mono_rec collectVirtuals_mono.
  all: try (apply collectVirtuals_mono; lia).
Qed.

Lemma analyse_mono (n m : nat) args : n <= m ->
  refines (analyse n args) (analyse m args).
Proof.
  intros Hle. unfold analyse, prepare.
  apply refines_bind.
  - apply refines_bind; [apply refines_refl|]. intros allDefs.
    apply refines_bind; [apply refines_refl|]. intros st.
    apply refines_bind; [apply refines_refl|]. intros st'.
    apply checkRecursion_mono. exact Hle.
  - intros st. apply refines_bind; [apply layoutTypes_mono; exact Hle|].
    intros st'. apply createVirtuals_mono. exact Hle.
Qed.

Lemma expandGlobal_mono (n m : nat) st : n <= m ->
  refines (expandGlobalAccessorsAndMacros n st) (expandGlobalAccessorsAndMacros m st).
Proof.
  intros Hle. unfold expandGlobalAccessorsAndMacros.
  apply refines_bind; [|intros a; apply refines_refl].
  apply for_of_mono. intros [defs lines] a.
  apply refines_bind; [|intros nlines; apply refines_refl].
  apply for_of_mono. intros l nlines.
  apply refines_bind; [|intros l'; apply refines_refl].
  apply expandMacrosIn_mono. exact Hle.
Qed.

Lemma main_mono (n m : nat) args : n <= m ->
  refines (main n args) (main m args).
Proof.
  intros Hle. unfold main.
  apply refines_bind; [apply analyse_mono; exact Hle|]. intros st.
  apply refines_bind; [apply refines_refl|]. intros st'.
  apply refines_bind; [apply expandGlobal_mono; exact Hle|]. intros st''.
  apply refines_refl.
Qed.

Lemma analyse_more (n : nat) args (r : result State) :
  analyse n args = r -> r <> Diverge -> forall budget, analyse (n + budget) args = r.
Proof.
  intros Hr Hd budget.
  destruct (analyse_mono n (n + budget) args ltac:(lia)) as [H|H]; congruence.
Qed.

Lemma main_more (n : nat) args (r : result (list string)) :
  main n args = r -> r <> Diverge -> forall budget, main (n + budget) args = r.
Proof.
  intros Hr Hd budget.
  destruct (main_mono n (n + budget) args ltac:(lia)) as [H|H]; congruence.
Qed.

(** ** Texts in which no pattern matches *)

Lemma matcher_reads (c : ascii) (r : regex) : forall k s res,
  matcher r k s = Some res -> reads c r k s res.
Proof.
  induction r as [| |c'|p|r1 IH1 r2 IH2|r1 IH1 r2 IH2|r1 IH1|r1 IH1|i r1 IH1];
    intros k s res H; cbn [matcher] in H.
  - destruct (pos s =? 0)%nat; [|discriminate H].
    exists s, []. split; [exact H|]. split; [reflexivity | discriminate].
  - destruct (rest s) eqn:E; [|discriminate H].
    exists s, []. split; [exact H|]. split; [reflexivity | discriminate].
  - unfold step in H. destruct (rest s) as [|c0 t] eqn:E; [discriminate H|].
    destruct (Ascii.eqb_spec c' c0) as [->|]; [|discriminate H].
    eexists _, [c0]. split; [exact H|]. split; [exact E|].
    cbn. intros Hc. left. symmetry. apply Ascii.eqb_eq. exact Hc.
  - unfold step in H. destruct (rest s) as [|c0 t] eqn:E; [discriminate H|].
    destruct (p c0); [|discriminate H].
    eexists _, [c0]. split; [exact H|]. split; [exact E | discriminate].
  - destruct (IH1 _ _ _ H) as (s1 & read1 & H1 & E1 & R1).
    destruct (IH2 _ _ _ H1) as (s2 & read2 & H2 & E2 & R2).
    exists s2, (read1 ++ read2)%list. split; [exact H2|].
    split; [rewrite E1, E2; apply app_assoc|].
    cbn. intros Hc. apply in_or_app.
    apply orb_true_iff in Hc as [Hc|Hc]; auto.
  - destruct (matcher r1 k s) as [x|] eqn:E.
    + injection H as ->.
      destruct (IH1 _ _ _ E) as (s1 & read1 & H1 & E1 & R1).
      exists s1, read1. repeat split; try assumption.
      cbn. intros Hc. apply andb_true_iff in Hc as [Hc _]. auto.
    + destruct (IH2 _ _ _ H) as (s2 & read2 & H2 & E2 & R2).
      exists s2, read2. repeat split; try assumption.
      cbn. intros Hc. apply andb_true_iff in Hc as [_ Hc]. auto.
  - match type of H with
    | match ?m with _ => _ end = _ => destruct m as [x|] eqn:E
    end.
    + injection H as ->.
      destruct (IH1 _ _ _ E) as (s1 & read1 & H1 & E1 & _).
      destruct (pos s1 =? pos s)%nat; [discriminate H1|].
      exists s1, read1. split; [exact H1|]. split; [exact E1 | discriminate].
    + exists s, []. split; [exact H|]. split; [reflexivity | discriminate].
  - revert H. generalize (S (List.length (rest s))). intros n. revert s.
    induction n as [|n IHn]; intros s H; cbn [iterate] in H.
    + exists s, []. split; [exact H|]. split; [reflexivity | discriminate].
    + match type of H with
      | match ?m with _ => _ end = _ => destruct m as [x|] eqn:E
      end.
      * injection H as ->.
        destruct (IH1 _ _ _ E) as (s1 & read1 & H1 & E1 & _).
        destruct (pos s1 =? pos s)%nat; [discriminate H1|].
        destruct (IHn s1 H1) as (s2 & read2 & H2 & E2 & _).
        exists s2, (read1 ++ read2)%list. split; [exact H2|].
        split; [|discriminate].
        cbn [reset rest] in E1. rewrite E1, E2. apply app_assoc.
      * exists s, []. split; [exact H|]. split; [reflexivity | discriminate].
  - destruct (IH1 _ _ _ H) as (s1 & read1 & H1 & E1 & R1).
    exists (capture i (pos s) s1), read1. split; [exact H1|].
    split; [exact E1 | exact R1].
Qed.

Lemma In_drop {A} (x : A) (n : nat) (l : list A) : In x (drop n l) -> In x l.
Proof.
  revert l. induction n as [|n IH]; intros [|y l] H; cbn in H; auto.
  right. apply IH. exact H.
Qed.

Lemma exec_requires (c : ascii) (r : regex) (from : nat) (input : string) :
  requires c r = true -> free_of c input -> RegExp.exec r from input = None.
Proof.
  intros Hr Hfree. unfold RegExp.exec.
  destruct (String.length input <? from)%nat; [reflexivity|].
  generalize (String.length input - from). intros n. revert from.
  induction n as [|n IH]; intros from; cbn [search].
  all: unfold match_at;
    destruct (matcher r Some (MState from (drop from (chars input)) [])) as [res|] eqn:E;
    [exfalso|].
  all: try (apply matcher_reads with (c := c) in E as (s' & read & _ & Hrest & Hin);
            cbn [rest] in Hrest;
            assert (Hc : In c (chars input))
              by (apply (In_drop c from); rewrite Hrest; apply in_or_app; auto);
            unfold free_of in Hfree;
            assert (Ht : existsb (Ascii.eqb c) (chars input) = true)
              by (apply existsb_exists; exists c; split;
                  [exact Hc | apply Ascii.eqb_refl]);
            congruence).
  - reflexivity.
  - apply IH.
Qed.

(** A text without [.] and without [@] has no accessor, no array accessor and
    no allocator in it: the expander returns it as it is. *)
Lemma expandMacrosIn_plain (budget : nat) (st : State) (text : string) :
  free_of "." text -> free_of "@" text ->
  expandMacrosIn (S budget) st text = Ok text.
Proof.
  intros Hdot Hat. cbn [expandMacrosIn]. unfold myExec.
  assert (Hexec : forall re macro n, requires "." re = true \/ requires "@" re = true ->
            myExecFrom n re macro text 0 = Ok text).
  { intros re macro n Hre.
    assert (E : RegExp.exec re 0 text = None)
      by (destruct Hre; eapply exec_requires; eauto).
    destruct n; cbn [myExecFrom]; rewrite E; reflexivity. }
  rewrite Hexec by (left; reflexivity). cbn [mbind result_bind].
  rewrite Hexec by (left; reflexivity). cbn [mbind result_bind].
  apply Hexec. right. reflexivity.
Qed.

(** ** Text without definitions *)

Lemma free_of_String (c a : ascii) (s : string) :
  free_of c (String a s) <-> Ascii.eqb c a = false /\ free_of c s.
Proof. unfold free_of. cbn. apply orb_false_iff. Qed.

Lemma split_free (c sep : ascii) (s : string) :
  free_of c s -> Forall (free_of c) (split sep s).
Proof.
  induction s as [|a s IH]; intros H.
  - repeat constructor.
  - apply free_of_String in H as [Ha Hs]. specialize (IH Hs). cbn [split].
    destruct (Ascii.eqb a sep).
    + constructor; [reflexivity | exact IH].
    + destruct (split sep s) as [|l ls].
      * repeat constructor. apply free_of_String. split; [exact Ha | reflexivity].
      * inversion IH as [|? ? Hl Hls]; subst. constructor; [|exact Hls].
        apply free_of_String. auto.
Qed.

Lemma split_nonempty (sep : ascii) (s : string) : split sep s <> [].
Proof.
  destruct s as [|a s]; cbn; [discriminate|].
  destruct (Ascii.eqb a sep); [discriminate|].
  destruct (split sep s); discriminate.
Qed.

Lemma join_split (sep : ascii) (s : string) :
  join (String sep "") (split sep s) = s.
Proof.
  induction s as [|a s IH]; [reflexivity|].
  cbn [split]. destruct (Ascii.eqb_spec a sep) as [->|Hne].
  - pose proof (split_nonempty sep s) as Hs.
    destruct (split sep s) as [|l ls]; [contradiction|].
    change (join (String sep "") ("" :: l :: ls))
      with (String sep (join (String sep "") (l :: ls))).
    rewrite IH. reflexivity.
  - pose proof (split_nonempty sep s) as Hs.
    destruct (split sep s) as [|l ls]; [contradiction|].
    destruct ls as [|l' ls].
    + cbn in IH |- *. rewrite IH. reflexivity.
    + change (join (String sep "") (String a l :: l' :: ls))
        with (String a (join (String sep "") (l :: l' :: ls))).
      rewrite IH. reflexivity.
Qed.

Lemma collectFrom_plain (filename : string) (lines : list string) :
  Forall (free_of "@") lines ->
  forall i defs nlines,
    collectFrom filename lines i defs nlines = Ok (defs, (nlines ++ lines)%list).
Proof.
  induction 1 as [|l lines Hl _ IH]; intros i defs nlines; cbn [collectFrom].
  - rewrite app_nil_r. reflexivity.
  - unfold RegExp.test.
    rewrite (exec_requires "@" start_re 0 l) by (reflexivity || exact Hl).
    cbn [negb]. rewrite IH, <- app_assoc. reflexivity.
Qed.

Lemma expand_lines_plain (budget : nat) (st : State) (lines : list string) :
  Forall (free_of ".") lines -> Forall (free_of "@") lines ->
  forall acc,
    for_of lines
      (fun l nlines => l' ← expandMacrosIn (S budget) st l; Ok (nlines ++ [l'])%list)
      acc
    = Ok (acc ++ lines)%list.
Proof.
  induction 1 as [|l lines Hl _ IH]; intros Hat acc; cbn [for_of].
  - rewrite app_nil_r. reflexivity.
  - inversion Hat as [|? ? Hl' Hat']; subst.
    rewrite expandMacrosIn_plain by assumption. cbn [mbind result_bind].
    rewrite IH by assumption. rewrite <- app_assoc. reflexivity.
Qed.

(** ** The scenarios of the layout *)

(** The analysis of a scenario, computed with a budget of 8. *)
Ltac analysed :=
  intros budget; apply analyse_more; [vm_compute; reflexivity | discriminate].


(** C1: the layout of a class starts at size 4 and alignment 4, but a field
    whose type is a struct without fields (size 0, alignment 0) is placed at
    [(size + 0 - 1) & ~(0 - 1)], which is 0: in [Holder] the fields [e] and
    [x] both get offset 0, inside the slot of the class identifier, where the
    claim wants every offset to be at least 4. *)
Theorem empty_struct_field_in_class_id_slot :
  exists st,
    (forall budget : nat,
       analyse (8 + budget) [("holder.js.parlang", Empty_source)] = Ok st) /\
    sizeAlignOf st "Empty" = Some (0, 0)%Z /\
    sizeAlignOf st "Holder" = Some (4, 4)%Z /\
    entryOf st "Holder" "e" = Some (MapEntry.mk "e" false 0 (UserRef 0)) /\
    entryOf st "Holder" "x" = Some (MapEntry.mk "x" true 0 (PrimRef int32)) /\
    alignUp 4 0 = 0%Z.
Proof.
  eexists. split; [analysed|].
  repeat split; vm_compute; reflexivity.
Qed.

(** X1: the class [Point] with [x:int32] and [y:int32] gets [SIZE] 12,
    [ALIGN] 4, [x] at offset 4 and [y] at offset 8. *)
Theorem Point_layout :
  exists st,
    (forall budget : nat,
       analyse (8 + budget) [("point.js.parlang", Point_source)] = Ok st) /\
    sizeAlignOf st "Point" = Some (12, 4)%Z /\
    offsetOfField st "Point" "x" = Some 4%Z /\
    offsetOfField st "Point" "y" = Some 8%Z.
Proof.
  eexists. split; [analysed|].
  repeat split; vm_compute; reflexivity.
Qed.

(** C2: the struct [Pair] gets [SIZE] 16 and [ALIGN] 8; the class [PairBox]
    places [pad1] at 4, [pad2] at 8, [p] at 16 and [pad3] at 32; its map has
    the entries [p_x] at 16 and [p_y] at 24, with the expand flag and the type
    of the entries [x] and [y] of [Pair], while [p] itself is not expanded. *)
Theorem PairBox_layout :
  exists st,
    (forall budget : nat,
       analyse (8 + budget) [("pair.js.parlang", Pair_source)] = Ok st) /\
    sizeAlignOf st "Pair" = Some (16, 8)%Z /\
    offsetOfField st "PairBox" "pad1" = Some 4%Z /\
    offsetOfField st "PairBox" "pad2" = Some 8%Z /\
    offsetOfField st "PairBox" "p" = Some 16%Z /\
    offsetOfField st "PairBox" "pad3" = Some 32%Z /\
    offsetOfField st "PairBox" "p_x" = Some 16%Z /\
    offsetOfField st "PairBox" "p_y" = Some 24%Z /\
    (exists x y px py p,
       entryOf st "Pair" "x" = Some x /\ entryOf st "Pair" "y" = Some y /\
       entryOf st "PairBox" "p_x" = Some px /\ entryOf st "PairBox" "p_y" = Some py /\
       entryOf st "PairBox" "p" = Some p /\
       MapEntry.expand px = MapEntry.expand x /\ MapEntry.type px = MapEntry.type x /\
       MapEntry.expand py = MapEntry.expand y /\ MapEntry.type py = MapEntry.type y /\
       MapEntry.expand x = true /\ MapEntry.expand y = true /\
       MapEntry.expand p = false /\
       MapEntry.type p = UserRef 0 /\ knownTypes st !! "Pair" = Some 0%nat).
Proof.
  eexists. split; [analysed|].
  repeat (split; [vm_compute; reflexivity|]).
  do 5 eexists.
  repeat (split; [vm_compute; reflexivity|]).
  vm_compute; reflexivity.
Qed.

(** ** The class identifier *)

(** C5: for a class name over the alphabet (a JavaScript string, hence
    shorter than 2^32) [computeClassId] returns the value of the recurrence of
    the specification; whatever it returns is at least 0 and below 2^28; and
    when the layout pass succeeds, no two classes have the same identifier:
    the pass throws at the second one, as it does for the classes [AI] and
    [BA]. *)
Theorem class_identifier :
  (forall name : string,
     Forall in_alphabet (chars name) -> (Z.of_nat (String.length name) < 2 ^ 32)%Z ->
     computeClassId name = Ok (spec_classId name)) /\
  (forall (name : string) (id : Z),
     computeClassId name = Ok id -> (0 <= id < 2 ^ 28)%Z) /\
  (forall (fuel : nat) (st st' : State),
     layoutTypes fuel st = Ok st' ->
     (forall j d, allTypes st !! j = Some d -> UserDefn.map d = None) ->
     (forall j d, allTypes st !! j = Some d -> UserDefn.name d <> "") ->
     forall i j c1 c2,
       allTypes st' !! i = Some c1 -> allTypes st' !! j = Some c2 ->
       UserDefn.kind c1 = Class -> UserDefn.kind c2 = Class ->
       UserDefn.classId c1 = UserDefn.classId c2 -> i = j) /\
  computeClassId "AI" = Ok 136%Z /\ computeClassId "BA" = Ok 136%Z /\
  (forall budget : nat,
     analyse (8 + budget) [("collision.js.parlang", Collision_source)]
     = Throw (Error "Duplicate class ID for BA: previous=AI, id=136")).
Proof.
  split; [exact computeClassId_spec|].
  split; [exact computeClassId_range|].
  split; [exact layoutTypes_distinct|].
  split; [vm_compute; reflexivity|].
  split; [vm_compute; reflexivity|].
  analysed.
Qed.

Lemma class_identifier_witness :
  computeClassId "A>B>C" = Ok (spec_classId "A>B>C") /\
  (0 <= 196538 < 2 ^ 28)%Z /\
  exists st st',
    prepare 8 [("abc.js.parlang", ABC_source)] = Ok st /\
    layoutTypes 8 st = Ok st' /\
    forall i j c1 c2,
      allTypes st' !! i = Some c1 -> allTypes st' !! j = Some c2 ->
      UserDefn.kind c1 = Class -> UserDefn.kind c2 = Class ->
      UserDefn.classId c1 = UserDefn.classId c2 -> i = j.
Proof.
  split; [|split].
  - apply (proj1 class_identifier).
    + repeat constructor; vm_compute; discriminate.
    + vm_compute. reflexivity.
  - apply (proj1 (proj2 class_identifier) "A>B>C"). vm_compute. reflexivity.
  - eexists. eexists. split; [vm_compute; reflexivity|].
    match goal with |- layoutTypes 8 ?t = _ /\ _ => pose (st0 := t) end.
    split; [vm_compute; reflexivity|].
    apply (proj1 (proj2 (proj2 class_identifier)) 8%nat st0);
      [vm_compute; reflexivity| |].
    + intros [|[|[|j]]] d H; vm_compute in H; try discriminate H;
        injection H as <-; reflexivity.
    + intros [|[|[|j]]] d H; vm_compute in H; try discriminate H;
        injection H as <-; discriminate.
Defined.

(** ** The virtual tables of the scenario *)

(** C6: for [A] with the methods [init] and [f], [B extends A] with its own
    [f], and [C extends B] without one, the table of [A] has one entry, for
    [f]: it sends the identifier of [A] to [A.f_impl] and those of [B] and [C]
    to [B.f_impl].  No pass of the table builder enters a method called
    [init] in a table. *)
Theorem vtable_dispatch :
  (forall (fuel : nat) (st st' : State),
     (forall j d, allTypes st !! j = Some d -> UserDefn.vtable d = None) ->
     createVirtuals fuel st = Ok st' -> no_init (allTypes st')) /\
  exists st a b c tableA f,
    (forall budget : nat,
       analyse (8 + budget) [("abc.js.parlang", ABC_source)] = Ok st) /\
    classIdOf st "A" = Some a /\ classIdOf st "B" = Some b /\
    classIdOf st "C" = Some c /\
    typeNamed st "A" = Some tableA /\
    List.map VirtualEntry.name (default [] (UserDefn.vtable tableA)) = ["f"] /\
    virtualOf tableA "f" = Some f /\
    VirtualEntry.reverseCases f = [("A.f_impl", [a]); ("B.f_impl", [b; c])] /\
    dispatch f a = Some "A.f_impl" /\
    dispatch f b = Some "B.f_impl" /\
    dispatch f c = Some "B.f_impl" /\
    virtualOf tableA "init" = None.
Proof.
  split.
  - intros fuel st st' Hfresh H.
    eapply createVirtuals_no_init; [exact H|].
    intros j d vt Hj Hvt. rewrite (Hfresh j d Hj) in Hvt. discriminate Hvt.
  - do 6 eexists. split; [analysed|].
    repeat (split; [vm_compute; reflexivity|]).
    vm_compute; reflexivity.
Qed.

Lemma vtable_dispatch_witness :
  exists st st',
    (st0 ← prepare 8 [("abc.js.parlang", ABC_source)]; layoutTypes 8 st0) = Ok st /\
    createVirtuals 8 st = Ok st' /\ no_init (allTypes st').
Proof.
  eexists. eexists. split; [vm_compute; reflexivity|].
  match goal with |- createVirtuals 8 ?t = _ /\ _ => pose (st0 := t) end.
  split; [vm_compute; reflexivity|].
  apply (proj1 vtable_dispatch 8%nat st0); [|vm_compute; reflexivity].
  intros [|[|[|j]]] d H; vm_compute in H; try discriminate H;
    injection H as <-; reflexivity.
Defined.

(** ** The accessor macro *)

(** C3, as the claim states it: the forms [Point.x.set(p, 10)] and
    [Point.x.ref(p)] are not accessors of this translator.  The pattern finds
    [x.set(] and [x.ref(] in them, [x] is no type, and the text stays as it
    is. *)
Lemma dotted_accessors_unchanged :
  exists st,
    (forall budget : nat,
       analyse (8 + budget) [("point.js.parlang", Point_source)] = Ok st) /\
    expandMacrosIn 2 st "Point.x.set(p, 10)" = Ok "Point.x.set(p, 10)" /\
    expandMacrosIn 2 st "Point.x.ref(p)" = Ok "Point.x.ref(p)".
Proof.
  eexists. split; [analysed|].
  split; vm_compute; reflexivity.
Qed.

(** C3, amended: with [x] an [int32] at offset 4 of [Point], the expander
    rewrites [Point.x(p)] to [(_mem_int32[(p+4)>>2])], [Point.set_x(p, 10)] to
    [(_mem_int32[(p+4)>>2] = 10)] and [Point.ref_x(p)] to [(p+4)]. *)
Theorem accessor_expansion :
  exists st,
    (forall budget : nat,
       analyse (8 + budget) [("point.js.parlang", Point_source)] = Ok st) /\
    offsetOfField st "Point" "x" = Some 4%Z /\
    forall budget : nat,
      expandMacrosIn (2 + budget) st "Point.x(p)" = Ok "(_mem_int32[(p+4)>>2])" /\
      expandMacrosIn (2 + budget) st "Point.set_x(p, 10)"
      = Ok "(_mem_int32[(p+4)>>2] = 10)" /\
      expandMacrosIn (2 + budget) st "Point.ref_x(p)" = Ok "(p+4)".
Proof.
  eexists. split; [analysed|].
  split; [vm_compute; reflexivity|].
  intros budget.
  repeat split;
    (apply expandMacrosIn_more; [vm_compute; reflexivity | discriminate]).
Qed.

(** ** The allocator macro *)




(** ** The expander on its own output *)




(** ** The end of the file inside a definition *)



(** ** Unknown type names in the array macro *)

(** C10, as the claim states it: a text with [Foo.array_get(] in it, [Foo]
    being no type, need not throw: as a second argument of [Point.ref_x] it
    is dropped with the argument.  And the accessor macro does not leave every
    unknown type name alone: [toString] is read from the prototype of
    [knownTypes], and the call of its [findAccessibleFieldFor] throws. *)
Lemma unknown_type_texts :
  exists st,
    (forall budget : nat,
       analyse (8 + budget) [("point.js.parlang", Point_source)] = Ok st) /\
    expandMacrosIn 3 st "Point.ref_x(p, Foo.array_get(a, i))" = Ok "(p+4)" /\
    expandMacrosIn 3 st "toString.call(x)"
    = Throw (TypeError "cls.findAccessibleFieldFor is not a function").
Proof.
  eexists. split; [analysed|].
  split; vm_compute; reflexivity.
Qed.

(** C10, amended: [arrMacro] throws whenever the type name of its match is
    neither a primitive nor a declared type, and the error ends the
    translation; [accMacro] returns the text unchanged, to go on after the
    match, when the type name is no declared type and no name that every
    object inherits. *)
Theorem array_macro_unknown_type :
  (forall (st : State) expand (s : string) (p : nat) (ms : found),
     Dict.get builtinTypes (grp s ms 1) = None ->
     knownTypes st !! grp s ms 1 = None ->
     exists e, arrMacro st expand s p ms = Throw e) /\
  (forall (st : State) expand (s : string) (p : nat) (ms : found),
     knownTypes st !! grp s ms 1 = None -> JS.inherited (grp s ms 1) = false ->
     accMacro st expand s p ms
     = Ok (s, (p + String.length (RegExp.matched s ms))%nat)) /\
  (exists st,
    (forall budget : nat,
       analyse (8 + budget) [("point.js.parlang", Point_source)] = Ok st) /\
     forall budget : nat,
       expandMacrosIn (2 + budget) st "var v = Foo.array_get(a, i);"
       = Throw (Error "Internal: Unknown type in sizeofType: Foo") /\
       expandMacrosIn (2 + budget) st "var v = Foo.array_set(a, i, 1);"
       = Throw (Error "Internal: Unknown type in sizeofType: Foo") /\
       expandMacrosIn (2 + budget) st "var v = Foo.x(a);" = Ok "var v = Foo.x(a);") /\
  (forall budget : nat,
     main (8 + budget) [("point.js.parlang",
                         unlines [Point_source; "var v = Foo.array_get(a, i);"])]
     = Throw (Error "Internal: Unknown type in sizeofType: Foo")).
Proof.
  split; [exact arrMacro_unknown|].
  split; [exact accMacro_unknown|].
  split.
  - eexists. split; [analysed|].
    intros budget.
    repeat split;
    (apply expandMacrosIn_more; [vm_compute; reflexivity | discriminate]).
  - intros budget. apply main_more; [vm_compute; reflexivity | discriminate].
Qed.

Lemma array_macro_unknown_type_witness :
  (exists e,
     arrMacro (mkState [] [] ∅ ∅) (fun t => Ok t) "Foo.array_get(a, i)" 0
              (Found 0 14 [(2, (10, 13)); (1, (0, 3))]) = Throw e) /\
  accMacro (mkState [] [] ∅ ∅) (fun t => Ok t) "Foo.x(a)" 0
           (Found 0 6 [(3, (4, 5)); (1, (0, 3))])
  = Ok ("Foo.x(a)", 6%nat).
Proof.
  split.
  - apply (proj1 array_macro_unknown_type); reflexivity.
  - apply (proj1 (proj2 array_macro_unknown_type)); reflexivity.
Defined.

(** ** Further properties of the layout *)

(** X2: after a layout pass that succeeds on freshly collected definitions
    whose primitive fields refer to the built-in types, every definition is
    laid out, its alignment is 0, 1, 2, 4 or 8, and the size of every struct
    is a multiple of its alignment: the masks of [layoutDefn] round up
    whatever the 32-bit operators do to the sum. *)
Theorem layout_alignment (fuel : nat) (st st' : State) :
  layoutTypes fuel st = Ok st' ->
  (forall j d, allTypes st !! j = Some d -> UserDefn.map d = None) ->
  builtin_props (allTypes st) ->
  forall j d, allTypes st' !! j = Some d ->
    laidOut d /\ alignment (UserDefn.align d) /\
    (UserDefn.kind d = Struct -> (UserDefn.align d | UserDefn.size d)%Z).
Proof.
  intros H Hfresh Hb j d Hj.
  assert (Ha : aligned_heap (allTypes st)).
  { intros k c Hk Hl. exfalso. apply Hl. eauto. }
  destruct (layoutTypes_aligned _ _ _ _ H Ha Hb) as (Ha' & [L _] & Hlaid).
  assert (Hl : laidOut d).
  { apply (Hlaid j d); [|exact Hj].
    apply in_seq. apply lookup_lt_Some in Hj. lia. }
  split; [exact Hl|]. apply (Ha' j d Hj Hl).
Qed.

Lemma layout_alignment_witness :
  exists st st',
    prepare 8 [("pair.js.parlang", Pair_source)] = Ok st /\
    layoutTypes 8 st = Ok st' /\
    forall j d, allTypes st' !! j = Some d ->
      laidOut d /\ alignment (UserDefn.align d) /\
      (UserDefn.kind d = Struct -> (UserDefn.align d | UserDefn.size d)%Z).
Proof.
  eexists. eexists. split; [vm_compute; reflexivity|].
  match goal with |- layoutTypes 8 ?t = _ /\ _ => pose (st0 := t) end.
  split; [vm_compute; reflexivity|].
  apply (layout_alignment 8%nat st0); [vm_compute; reflexivity| |].
  - intros [|[|j]] d H; vm_compute in H; try discriminate H;
      injection H as <-; reflexivity.
  - intros [|[|j]] d p pt H; vm_compute in H; try discriminate H;
      injection H as <-; cbn [UserDefn.props];
      intros Hp; repeat (destruct Hp as [<-|Hp]; [cbn; intros Hr; try discriminate Hr;
        injection Hr as <-; cbn; tauto|]); destruct Hp.
Defined.

(** X3: after a layout pass that succeeds on definitions as the resolver and
    the cycle check leave them, the dotted name of a class without a base is
    its name, and the dotted name of a derived class is the dotted name of
    its base, then [>], then its name. *)
Theorem dotted_class_names (fuel : nat) (st st' : State) :
  layoutTypes fuel st = Ok st' ->
  (forall j d, allTypes st !! j = Some d ->
     UserDefn.map d = None /\ UserDefn.className d = "") ->
  based (allTypes st) ->
  forall j d, allTypes st' !! j = Some d -> UserDefn.kind d = Class ->
    match UserDefn.baseTypeRef d with
    | None => UserDefn.className d = UserDefn.name d
    | Some b =>
        exists base, allTypes st' !! b = Some base /\
          UserDefn.className d = (UserDefn.className base +:+ ">") +:+ UserDefn.name d
    end.
Proof.
  intros H Hfresh Hbased j d Hj Hk.
  assert (Hinv : naming_inv st).
  { constructor; [exact Hbased| | | |].
    - intros k c Hc _ Hl. exfalso. apply Hl. apply (Hfresh k c Hc).
    - intros k c Hc Hcl. exfalso. apply Hcl. apply (Hfresh k c Hc).
    - intros k c Hc Hcl. exfalso. apply Hcl. apply (Hfresh k c Hc).
    - intros k c Hc Hcl. exfalso. apply Hcl. apply (Hfresh k c Hc). }
  assert (Hlinv : layout_inv st).
  { constructor.
    - intros k c Hc. apply (Hbased k c Hc).
    - intros k c Hc _ Hl. exfalso. apply Hl. apply (Hfresh k c Hc).
    - intros k1 k2 c1 c2 H1 _ _ _ Hl. exfalso. apply Hl. apply (Hfresh k1 c1 H1). }
  pose proof (layoutTypes_named _ _ _ H Hinv) as Hinv'.
  destruct (layoutTypes_inv _ _ _ _ H Hlinv) as (_ & [L _] & Hlaid).
  assert (Hl : laidOut d).
  { apply (Hlaid j d); [|exact Hj|exact Hk].
    apply in_seq. apply lookup_lt_Some in Hj. lia. }
  pose proof (nm_class _ Hinv' j d Hj Hk Hl) as Hc.
  pose proof (nm_dotted _ Hinv' j d Hj Hc) as Hdot. unfold dotted in Hdot.
  destruct (UserDefn.baseTypeRef d) as [b|]; [|exact Hdot].
  destruct Hdot as (base & Hbase & _ & E). eauto.
Qed.

Lemma dotted_class_names_witness :
  exists st st' a b c,
    prepare 8 [("abc.js.parlang", ABC_source)] = Ok st /\
    layoutTypes 8 st = Ok st' /\
    allTypes st' = [a; b; c] /\
    UserDefn.className a = "A" /\
    UserDefn.className b = "A>B" /\
    UserDefn.className c = "A>B>C" /\
    forall j d, allTypes st' !! j = Some d -> UserDefn.kind d = Class ->
      match UserDefn.baseTypeRef d with
      | None => UserDefn.className d = UserDefn.name d
      | Some b =>
          exists base, allTypes st' !! b = Some base /\
            UserDefn.className d = (UserDefn.className base +:+ ">") +:+ UserDefn.name d
      end.
Proof.
  do 5 eexists. split; [vm_compute; reflexivity|].
  match goal with |- layoutTypes 8 ?t = _ /\ _ => pose (st0 := t) end.
  split; [vm_compute; reflexivity|].
  do 4 (split; [vm_compute; reflexivity|]).
  apply (dotted_class_names 8%nat st0); [vm_compute; reflexivity| |].
  - intros [|[|[|j]]] d H; vm_compute in H; try discriminate H;
      injection H as <-; split; reflexivity.
  - intros [|[|[|j]]] d H; vm_compute in H; try discriminate H;
      injection H as <-; (split; [discriminate|]);
      intros b Hb; vm_compute in Hb; try discriminate Hb; injection Hb as <-;
      (split; [discriminate|]); (split; [discriminate|]);
      eexists; (split; [vm_compute; reflexivity | reflexivity]).
Defined.




(** ** Further properties of the expander *)

(** X7: a file in which neither [.] nor [@] occurs has no definition and no
    macro in it: the translation writes its text back unchanged. *)
Theorem plain_text_unchanged (budget : nat) (text : string) :
  free_of "." text -> free_of "@" text ->
  main (S budget) [("plain.js.parlang", text)] = Ok [text].
Proof.
  intros Hdot Hat.
  pose proof (split_free "." newline text Hdot) as Hdots.
  pose proof (split_free "@" newline text Hat) as Hats.
  unfold main, analyse, prepare, collectAll. cbn [for_of].
  match goal with |- context [if ?b then _ else _] => change b with false end.
  cbv iota.
  unfold collectDefinitions. rewrite collectFrom_plain by exact Hats.
  cbn -[expandMacrosIn]. rewrite !drop_0.
  rewrite expand_lines_plain by assumption. cbn.
  rewrite join_split. reflexivity.
Qed.

Lemma plain_text_unchanged_witness :
  main 1 [("plain.js.parlang", unlines ["var x = 1;"; "function f(a) { return a + x; }"])]
  = Ok [unlines ["var x = 1;"; "function f(a) { return a + x; }"]].
Proof. apply (plain_text_unchanged 0); reflexivity. Defined.


(** X9: the arguments of an accessor are expanded before they are pasted
    into the replacement, so accessors nest: the address of one, and the
    value written by one, may be an accessor. *)
Theorem nested_accessors :
  exists st,
    (forall budget : nat,
       analyse (8 + budget) [("point.js.parlang", Point_source)] = Ok st) /\
    forall budget : nat,
      expandMacrosIn (4 + budget) st "Point.x(Point.ref_y(p))"
      = Ok "(_mem_int32[(((p+8))+4)>>2])" /\
      expandMacrosIn (4 + budget) st "Point.set_x(p, Point.y(q))"
      = Ok "(_mem_int32[(p+4)>>2] = ((_mem_int32[(q+8)>>2])))".
Proof.
  eexists. split; [analysed|].
  intros budget.
  repeat split;
    (apply expandMacrosIn_more; [vm_compute; reflexivity | discriminate]).
Qed.

(** ** The translation of whole files *)

(** X10: all passes together on a class with an initialiser and a virtual
    method: the definition is replaced by its object literal at the place
    where it stood, the self accessors of the method bodies become memory
    accesses, the virtual method gets its dispatcher, and the allocation
    after the definition is expanded. *)
Theorem Counter_translation :
  forall budget : nat,
    main (8 + budget) [("counter.js.parlang", Counter_source)]
    = Ok [unlines
            [ "var before = 1;";
              "const Counter = {";
              "  NAME: " +:+ String dquote "Counter" +:+ String dquote ",";
              "  SIZE: 8,";
              "  ALIGN: 4,";
              "  CLSID: 16688539,";
              "  init : function (self, n) {";
              "        (_mem_int32[(self+4)>>2] = n);";
              "        return self;";
              "    },";
              "  get_impl : function (self) {";
              "        return (_mem_int32[(self+4)>>2]);";
              "    },";
              "get: function (self, ...args) {";
              "  switch (_mem_int32[self>>2]) {";
              "    case 16688539: ";
              "      return Counter.get_impl(self, ...args);";
              "    default:";
              "      throw new Error('Bad type');";
              "  }";
              "},";
              "initInstance:function(self) { _mem_int32[self>>2]=16688539; return self; },";
              "}";
              "Parlang._idToType[16688539] = Counter;";
              "var c = Counter.init((Counter.initInstance(Parlang.alloc(8,4))), 7);" ]].
Proof.
  intros budget. apply main_more; [vm_compute; reflexivity | discriminate].
Qed.

(** X11: the dispatchers emitted for [A], [B extends A] and [C extends B]:
    the one of [A.f] calls [A.f_impl] for the identifier of [A] and
    [B.f_impl] for those of [B] and [C]; the one of [C.f], a method that [C]
    inherits, has no case and calls [B.f_impl] by default; [init] is emitted
    under its own name and has no dispatcher. *)
Theorem ABC_translation :
  forall budget : nat,
    main (8 + budget) [("abc.js.parlang", ABC_source)]
    = Ok [unlines
            [ "const A = {";
              "  NAME: " +:+ String dquote "A" +:+ String dquote ",";
              "  SIZE: 4,";
              "  ALIGN: 4,";
              "  CLSID: 8,";
              "  init : function (self) { return self; },";
              "  f_impl : function (self) { return 1; },";
              "f: function (self, ...args) {";
              "  switch (_mem_int32[self>>2]) {";
              "    case 8: ";
              "      return A.f_impl(self, ...args);";
              "    case 2041: ";
              "    case 196538: ";
              "      return B.f_impl(self, ...args);";
              "    default:";
              "      throw new Error('Bad type');";
              "  }";
              "},";
              "initInstance:function(self) { _mem_int32[self>>2]=8; return self; },";
              "}";
              "Parlang._idToType[8] = A;";
              "const B = {";
              "  NAME: " +:+ String dquote "B" +:+ String dquote ",";
              "  SIZE: 4,";
              "  ALIGN: 4,";
              "  CLSID: 2041,";
              "  f_impl : function (self) { return 2; },";
              "f: function (self, ...args) {";
              "  switch (_mem_int32[self>>2]) {";
              "    case 2041: ";
              "    case 196538: ";
              "      return B.f_impl(self, ...args);";
              "    default:";
              "      throw new Error('Bad type');";
              "  }";
              "},";
              "initInstance:function(self) { _mem_int32[self>>2]=2041; return self; },";
              "}";
              "Parlang._idToType[2041] = B;";
              "const C = {";
              "  NAME: " +:+ String dquote "C" +:+ String dquote ",";
              "  SIZE: 4,";
              "  ALIGN: 4,";
              "  CLSID: 196538,";
              "f: function (self, ...args) {";
              "  switch (_mem_int32[self>>2]) {";
              "    default:";
              "      return B.f_impl(self, ...args);";
              "  }";
              "},";
              "initInstance:function(self) { _mem_int32[self>>2]=196538; return self; },";
              "}";
              "Parlang._idToType[196538] = C;" ]].
Proof.
  intros budget. apply main_more; [vm_compute; reflexivity | discriminate].
Qed.
